(** * Healer: the TypeScript comment fixer

    A shallow embedding of [ts-comment-fixer.py] (class [CommentFixer], its
    [fix_file] rewrite pipeline, the result collection loop of
    [process_directory] and the single-file branch of [main] with its force
    mode) and of the older [fix_ts_comments.py], together with the part of
    Python's [re] module the two scripts rely on.

    Texts are Python [str] values: sequences of Unicode code points.  Every
    regular expression of the scripts is compiled with [re.MULTILINE] and is a
    plain sequence of literals, character classes, greedy repetitions of one
    character class, the anchors [^] and [$], one negative lookahead and
    capture groups that are never nested. *)

From Stdlib Require Import ZArith NArith List String Ascii Lia.
From stdpp Require Import base gmap strings list.

(** ** Texts *)

Abbreviation char := N (only parsing).
Abbreviation text := (list N) (only parsing).

Definition chr (a : ascii) : char := N_of_ascii a.

(** [str "..."] is the text of an ASCII literal. *)
Definition str (s : string) : text := map chr (list_ascii_of_string s).

Definition nl : char := 10%N.      (* '\n' *)
Definition slash : char := 47%N.   (* '/'  *)
Definition equals : char := 61%N.  (* '='  *)
Definition space : char := 32%N.   (* ' '  *)

(** ** The fragment of [re] used by the scripts *)

Module Re.

(** Members of a character class. *)
Inductive atom :=
| Ch (c : char)            (* a single character *)
| Rng (lo hi : char)       (* a range such as A-Z *)
| Space                    (* \s *)
| NotNl.                   (* . without re.DOTALL *)

Definition cset := list atom.

Definition between (lo hi c : char) : bool := (N.leb lo c && N.leb c hi)%bool.

(** [\s] on a [str] pattern is Unicode white space ([Py_UNICODE_ISSPACE]). *)
Definition is_space (c : char) : bool :=
  (between 9 13 c || between 28 32 c || N.eqb c 133 || N.eqb c 160
   || N.eqb c 5760 || between 8192 8202 c || N.eqb c 8232 || N.eqb c 8233
   || N.eqb c 8239 || N.eqb c 8287 || N.eqb c 12288)%N%bool.

Definition in_atom (a : atom) (c : char) : bool :=
  match a with
  | Ch c' => N.eqb c c'
  | Rng lo hi => between lo hi c
  | Space => is_space c
  | NotNl => negb (N.eqb c nl)
  end.

Definition in_cset (cs : cset) (c : char) : bool := existsb (fun a => in_atom a c) cs.

(** One element of a pattern. *)
Inductive item :=
| Lit (c : char)               (* an escaped or plain literal: \/ and \n *)
| One (cs : cset)              (* one character of a class: [A-Z] *)
| Rep (min : nat) (cs : cset)  (* greedy repetition of a class: * is 0, + is 1, {5,} is 5 *)
| Bol                          (* ^ under re.MULTILINE *)
| Eol                          (* $ under re.MULTILINE *)
| NotAhead (c : char)          (* (?!c) *)
| Open                         (* ( *)
| Close.                       (* ) *)

Definition pattern := list item.

(** Capture state of one match attempt: the suffixes of the subject at the
    parentheses still open, and the groups already closed (latest first). *)
Record caps := Caps { opened : list text; closed : list text }.

Definition no_caps : caps := Caps [] [].

Definition open_group (s : text) (g : caps) : caps := Caps (s :: opened g) (closed g).

Definition close_group (s : text) (g : caps) : caps :=
  match opened g with
  | o :: os => Caps os (take (length o - length s) o :: closed g)
  | [] => g
  end.

(** A successful match: the groups 1, 2, ... and the unconsumed suffix. *)
Record found := Found { groups : list text; rest : text }.

(** Continuations of the backtracking matcher: the character before the
    current position, the remaining subject and the captures so far. *)
Definition kont := option char -> text -> caps -> option found.

Definition at_bol (prev : option char) : bool :=
  match prev with
  | None => true
  | Some c => N.eqb c nl
  end.

Definition at_eol (s : text) : bool :=
  match s with
  | [] => true
  | c :: _ => N.eqb c nl
  end.

(** Greedy [cs{min,}]: take the character if it is in the class and try the
    rest; when that fails, stop here if enough characters were taken. *)
Fixpoint rep (cs : cset) (k : kont) (min : nat) (prev : option char) (s : text)
    (g : caps) : option found :=
  let stop := match min with O => k prev s g | S _ => None end in
  match s with
  | c :: s' =>
      if in_cset cs c then
        match rep cs k (pred min) (Some c) s' g with
        | Some r => Some r
        | None => stop
        end
      else stop
  | [] => stop
  end.

Fixpoint run (p : pattern) (k : kont) : kont :=
  match p with
  | [] => k
  | i :: p' =>
      fun prev s g =>
        match i with
        | Lit c =>
            match s with
            | c' :: s' => if N.eqb c' c then run p' k (Some c') s' g else None
            | [] => None
            end
        | One cs =>
            match s with
            | c' :: s' => if in_cset cs c' then run p' k (Some c') s' g else None
            | [] => None
            end
        | Rep min cs => rep cs (run p' k) min prev s g
        | Bol => if at_bol prev then run p' k prev s g else None
        | Eol => if at_eol s then run p' k prev s g else None
        | NotAhead c =>
            match s with
            | c' :: _ => if N.eqb c' c then None else run p' k prev s g
            | [] => run p' k prev s g
            end
        | Open => run p' k prev s (open_group s g)
        | Close => run p' k prev s (close_group s g)
        end
  end.

(** The match of [p] that starts exactly at the current position, if any. *)
Definition match_at (p : pattern) (prev : option char) (s : text) : option found :=
  run p (fun _ s' g => Some (Found (rev (closed g)) s')) prev s no_caps.

(** The scan shared by [findall] and [sub]: the subject cut into the
    characters outside every match and the non-overlapping matches, leftmost
    first.  [skip] counts the characters of the current match still to be
    passed over.  No pattern of the scripts matches the empty string; an empty
    match would be followed by the character at its position. *)
Inductive token :=
| Keep (c : char)
| Hit (m : found).

Fixpoint scan (p : pattern) (skip : nat) (prev : option char) (s : text) : list token :=
  match s with
  | [] =>
      match skip, match_at p prev [] with
      | O, Some m => [Hit m]
      | _, _ => []
      end
  | c :: s' =>
      match skip with
      | S n => scan p n (Some c) s'
      | O =>
          match match_at p prev s with
          | Some m =>
              match (length s - length (rest m))%nat with
              | O => Hit m :: Keep c :: scan p 0 (Some c) s'
              | S n => Hit m :: scan p n (Some c) s'
              end
          | None => Keep c :: scan p 0 (Some c) s'
          end
      end
  end.

Definition tokens (p : pattern) (s : text) : list token := scan p 0 None s.

(** [pattern.findall(s)]: the groups of every match. *)
Definition findall (p : pattern) (s : text) : list (list text) :=
  flat_map (fun t => match t with Keep _ => [] | Hit m => [groups m] end) (tokens p s).

(** Replacement templates such as [//\1]. *)
Inductive piece :=
| Txt (t : text)
| Grp (n : nat).      (* \n, counted from 1 *)

Definition template := list piece.

Definition expand (tpl : template) (m : found) : text :=
  flat_map (fun pc => match pc with
                      | Txt t => t
                      | Grp n => nth (pred n) (groups m) []
                      end) tpl.

Definition render (tpl : template) (ts : list token) : text :=
  flat_map (fun t => match t with Keep c => [c] | Hit m => expand tpl m end) ts.

(** [pattern.sub(tpl, s)]. *)
Definition sub (p : pattern) (tpl : template) (s : text) : text :=
  render tpl (tokens p s).

(** A rule: an expression and its replacement. *)
Record rule := Rule {
  rule_name : string;
  rule_pattern : pattern;
  rule_template : template
}.

(** One application of a rule. *)
Definition apply (r : rule) (s : text) : text :=
  sub (rule_pattern r) (rule_template r) s.

(** *** Notions used to reason about the scan *)

(** The character before the position reached after reading [a]. *)
Fixpoint ctx (prev : option char) (a : text) : option char :=
  match a with
  | [] => prev
  | c :: a' => ctx (Some c) a'
  end.

(** The longest prefix of [s] made of characters of the class, and what
    follows it. *)
Fixpoint leading (cs : cset) (s : text) : text :=
  match s with
  | c :: s' => if in_cset cs c then c :: leading cs s' else []
  | [] => []
  end.

Fixpoint beyond (cs : cset) (s : text) : text :=
  match s with
  | c :: s' => if in_cset cs c then beyond cs s' else s
  | [] => []
  end.

(** The substitution and the number of matches from a position in the
    middle of a text, [prev] being the character before it. *)
Definition sub_from (p : pattern) (tpl : template) (prev : option char)
    (s : text) : text :=
  render tpl (scan p 0 prev s).

(** No match of [p] starts anywhere in [s], read after [prev]. *)
Definition quiet (p : pattern) (prev : option char) (s : text) : Prop :=
  scan p 0 prev s = map Keep s.

(** No match of [p] starts inside [e], whatever text follows [e]. *)
Definition silent (p : pattern) (prev : option char) (e : text) : Prop :=
  forall e1 x e2 t, e = e1 ++ x :: e2 ->
    match_at p (ctx prev e1) (x :: e2 ++ t) = None.

End Re.

(** ** Files

    What the scripts see of the file system: [open], [read] and [write] in
    text mode, and the ways they fail. *)

Module Files.

Inductive exn :=
| FileNotFoundError
| UnicodeDecodeError
| PermissionError
| OSError
| UnboundLocalError (name : string).

(** A file holds text, or bytes that are not valid UTF-8. *)
Inductive file :=
| Utf8 (content : text)
| Garbled.

(** Text mode with the default [newline=None]: on input every "\r\n" and
    every lone "\r" becomes "\n". *)
Fixpoint universal_newlines (t : text) : text :=
  match t with
  | [] => []
  | c :: t' =>
      if N.eqb c 13 then
        match t' with
        | d :: t'' => if N.eqb d nl then nl :: universal_newlines t''
                      else nl :: universal_newlines t'
        | [] => [nl]
        end
      else c :: universal_newlines t'
  end.

(** [with open(path, 'r', encoding='utf-8') as f: content = f.read()] *)
Definition read_text (d : gmap string file) (path : string) : exn + text :=
  match d !! path with
  | None => inl FileNotFoundError
  | Some Garbled => inl UnicodeDecodeError
  | Some (Utf8 t) => inr (universal_newlines t)
  end.

(** What can go wrong in [open(path, 'w')] and [f.write]: the open is
    refused, or the device fails once [written] characters are out. *)
Inductive write_fault :=
| OpenFails
| WriteFails (written : nat).

(** [with open(path, 'w', encoding='utf-8') as f: f.write(t)].  Mode ['w']
    truncates the file when it is opened; the text is then written in place. *)
Definition write_text (fault : option write_fault) (path : string) (t : text)
    (d : gmap string file) : gmap string file * option exn :=
  match fault with
  | None => (<[path := Utf8 t]> d, None)
  | Some OpenFails => (d, Some PermissionError)
  | Some (WriteFails n) => (<[path := Utf8 (take n t)]> d, Some OSError)
  end.

End Files.

(** ** ts-comment-fixer.py

    The regular expressions are quoted with their elements spaced out; all
    are compiled with [re.MULTILINE]. *)

Module CommentFixer.
Import Re Files.

Definition upper : cset := [Rng 65 90]%N.                                  (* [A-Z] *)
Definition title : cset := [Rng 65 90; Rng 48 57; Ch 32; Ch 95; Ch 45]%N.  (* [A-Z0-9 _-] *)
Definition alpha : cset := [Rng 65 90; Rng 97 122]%N.                      (* [A-Za-z] *)

(** [^ \/ (?!\/) ( .* ) $] *)
Definition pattern1 : pattern :=
  [Bol; Lit slash; NotAhead slash; Open; Rep 0 [NotNl]; Close; Eol].

(** [( \/ \/ \s* =+ ) \s* \n ( [A-Z] [A-Z0-9 _-]+ ) \s* \n ( \/ \/ \s* =+ )] *)
Definition pattern2 : pattern :=
  [Open; Lit slash; Lit slash; Rep 0 [Space]; Rep 1 [Ch equals]; Close;
   Rep 0 [Space]; Lit nl;
   Open; One upper; Rep 1 title; Close;
   Rep 0 [Space]; Lit nl;
   Open; Lit slash; Lit slash; Rep 0 [Space]; Rep 1 [Ch equals]; Close].

(** [( \s+ ) \/ ( \s+ [A-Za-z] )] *)
Definition pattern3 : pattern :=
  [Open; Rep 1 [Space]; Close; Lit slash; Open; Rep 1 [Space]; One alpha; Close].

(** [^ ( [A-Z] [A-Z0-9 _-]{5,} ) $] *)
Definition pattern4 : pattern :=
  [Bol; Open; One upper; Rep 5 title; Close; Eol].

(** [^ ( =+ ) $] *)
Definition pattern5 : pattern :=
  [Bol; Open; Rep 1 [Ch equals]; Close; Eol].

(** [^ \/ ( \s* =+ )] *)
Definition pattern6 : pattern :=
  [Bol; Lit slash; Open; Rep 0 [Space]; Rep 1 [Ch equals]; Close].

(** [//\1] *)
Definition double_slash : template := [Txt [slash; slash]; Grp 1].
(** [\1\n// \2\n\3] *)
Definition title_comment : template :=
  [Grp 1; Txt [nl; slash; slash; space]; Grp 2; Txt [nl]; Grp 3].
(** [\1//\2] *)
Definition inner_slash : template := [Grp 1; Txt [slash; slash]; Grp 2].
(** [// \1] *)
Definition comment_out : template := [Txt [slash; slash; space]; Grp 1].

(** A dictionary with the nine keys of [fix_counts], in the order of the
    source. *)
Definition tally (section_headers section_titles object_comments naked_headers
    section_dividers multiline_sections mixed_slash_headers standalone_slashes
    total : Z) : gmap string Z :=
  list_to_map
    [("section_headers", section_headers); ("section_titles", section_titles);
     ("object_comments", object_comments); ("naked_headers", naked_headers);
     ("section_dividers", section_dividers);
     ("multiline_sections", multiline_sections);
     ("mixed_slash_headers", mixed_slash_headers);
     ("standalone_slashes", standalone_slashes); ("total", total)].

(** The [fix_counts] dictionary as [fix_file] creates it. *)
Definition fix_counts0 : gmap string Z := tally 0 0 0 0 0 0 0 0 0.

(** The nine keys. *)
Definition category_keys : gset string :=
  list_to_set
    ["section_headers"; "section_titles"; "object_comments"; "naked_headers";
     "section_dividers"; "multiline_sections"; "mixed_slash_headers";
     "standalone_slashes"; "total"].

(** [d[key] += n]; every key the pipeline bumps is in [fix_counts0]. *)
Definition bump (key : string) (n : Z) (d : gmap string Z) : gmap string Z :=
  <[key := (d !!! key + n)%Z]> d.

(** [sum(v for k, v in d.items() if k != "total")] *)
Definition sum_but_total (d : gmap string Z) : Z :=
  map_fold (fun k v acc => if decide (k = "total") then acc else (acc + v)%Z) 0%Z d.

(** [{k: 0 for k in d}] *)
Definition zeroed (d : gmap string Z) : gmap string Z := (fun _ => 0%Z) <$> d.

(** [len(p.findall(s))] *)
Definition count (p : pattern) (s : text) : Z := Z.of_nat (length (findall p s)).

(** One rule application: count the matches, substitute, add the count. *)
Definition apply_rule (p : pattern) (tpl : template) (key : string)
    (st : text * gmap string Z) : text * gmap string Z :=
  let match_count := count p st.1 in
  (sub p tpl st.1, bump key match_count st.2).

(** The body of [fix_file] between the read and the comparison with the
    original content: the rules in source order, [pattern1] a second time as
    [pattern1a], [pattern6] inside [for i in range(3)], then the total. *)
Definition fix_content (content : text) : text * gmap string Z :=
  let st := (content, fix_counts0) in
  let st := apply_rule pattern1 double_slash "standalone_slashes" st in
  let st := apply_rule pattern1 double_slash "standalone_slashes" st in
  let st := apply_rule pattern2 title_comment "multiline_sections" st in
  let st := apply_rule pattern3 inner_slash "object_comments" st in
  let st := apply_rule pattern4 comment_out "naked_headers" st in
  let st := apply_rule pattern5 comment_out "section_dividers" st in
  let st := foldl (fun st (i : nat) => apply_rule pattern6 double_slash "section_headers" st)
                  st (seq 0 3) in
  (st.1, <["total" := sum_but_total st.2]> st.2).

(** *** The fixer object and [fix_file] *)

Record fixer := Fixer {
  dry_run : bool;
  verbose : bool;
  fixed_files : gmap string (gmap string Z);
  error_files : gmap string exn;
  skipped_files : gset string
}.

(** [CommentFixer(dry_run, verbose)] *)
Definition new_fixer (dry verb : bool) : fixer := Fixer dry verb ∅ ∅ ∅.

(** What a call does: return its triple or let an exception escape. *)
Inductive outcome :=
| Returns (file_path : string) (was_fixed : bool) (fix_counts : gmap string Z)
| Raises (e : exn).

(** The [except Exception as e] clause.  [fix_counts] is the local variable
    of that name: bound only once the read has succeeded, and read again by
    the [return] of the handler. *)
Definition handler (self : fixer) (file_path : string)
    (fix_counts : option (gmap string Z)) (e : exn) : fixer * outcome :=
  let self := Fixer (dry_run self) (verbose self) (fixed_files self)
                    (<[file_path := e]> (error_files self)) (skipped_files self) in
  match fix_counts with
  | Some fc => (self, Returns file_path false (zeroed fc))
  | None => (self, Raises (UnboundLocalError "fix_counts"))
  end.

Definition fix_file (self : fixer) (fault : option write_fault)
    (d : gmap string file) (file_path : string)
    : fixer * gmap string file * outcome :=
  match read_text d file_path with
  | inl e => let r := handler self file_path None e in (r.1, d, r.2)
  | inr original_content =>
      let '(content, fix_counts) := fix_content original_content in
      if bool_decide (content ≠ original_content) && negb (dry_run self) then
        match write_text fault file_path content d with
        | (d', None) => (self, d', Returns file_path true fix_counts)
        | (d', Some e) =>
            let r := handler self file_path (Some fix_counts) e in (r.1, d', r.2)
        end
      else if bool_decide (content ≠ original_content) then
        (self, d, Returns file_path false fix_counts)
      else
        (self, d, Returns file_path false (zeroed fix_counts))
  end.

(** The loop of [process_directory] over [as_completed(futures)]:
    [future.result()] hands back the triple of a worker or raises what the
    worker raised; nothing in the loop catches it. *)
Fixpoint collect (self : fixer) (results : list outcome) : fixer * option exn :=
  match results with
  | [] => (self, None)
  | Raises e :: _ => (self, Some e)
  | Returns file_path was_fixed fix_counts :: rest =>
      let self :=
        if was_fixed then
          Fixer (dry_run self) (verbose self)
                (<[file_path := fix_counts]> (fixed_files self))
                (error_files self) (skipped_files self)
        else if bool_decide (0 < fix_counts !!! "total")%Z then
          Fixer (dry_run self) (verbose self) (fixed_files self)
                (error_files self) ({[file_path]} ∪ skipped_files self)
        else self in
      collect self rest
  end.

(** *** Force mode of [main] *)

(** [s.split(sep)] for a one-character separator. *)
Fixpoint split (sep : char) (s : text) : list text :=
  match s with
  | [] => [[]]
  | c :: s' =>
      if N.eqb c sep then [] :: split sep s'
      else match split sep s' with
           | l :: ls => (c :: l) :: ls
           | [] => [[c]]
           end
  end.

(** [sep.join(ls)] *)
Fixpoint join (sep : char) (ls : list text) : text :=
  match ls with
  | [] => []
  | [l] => l
  | l :: ls' => l ++ sep :: join sep ls'
  end.

(** [s.startswith(pre)] *)
Fixpoint startswith (pre s : text) : bool :=
  match pre, s with
  | [], _ => true
  | _ :: _, [] => false
  | a :: pre', c :: s' => N.eqb a c && startswith pre' s'
  end.

(** [for i, line in enumerate(lines)]: the iterator reads [lines[i]] from the
    list that the body updates in place; [n] bounds the remaining steps. *)
Fixpoint force_loop (n i : nat) (lines : list text) (direct_fixes : Z)
    : list text * Z :=
  match n with
  | O => (lines, direct_fixes)
  | S n' =>
      match lines !! i with
      | None => (lines, direct_fixes)
      | Some line =>
          if startswith [slash] line && negb (startswith [slash; slash] line) then
            force_loop n' (S i) (<[i := slash :: line]> lines) (direct_fixes + 1)%Z
          else force_loop n' (S i) lines direct_fixes
      end
  end.

Definition force_lines (content : text) : list text * Z :=
  let lines := split nl content in
  force_loop (length lines) 0 lines 0%Z.


(** What [main] prints in its single-file branch. *)
Inductive report :=
| WouldFix (n : Z)
| Fixed (n : Z)
| NoIssues
| ForceActivated
| Applied (n : Z)
| WouldApply (n : Z)
| ForceError (e : exn).

Record args := Args {
  arg_dry_run : bool;
  arg_verbose : bool;
  arg_fix_file : string;
  arg_force : bool
}.

(** The [try] block of force mode. *)
Definition force_mode (a : args) (fault : option write_fault)
    (d : gmap string file) (file_path : string)
    : gmap string file * list report :=
  match read_text d file_path with
  | inl e => (d, [ForceError e])
  | inr content =>
      let '(lines, direct_fixes) := force_lines content in
      if bool_decide (0 < direct_fixes)%Z then
        let new_content := join nl lines in
        if negb (arg_dry_run a) then
          match write_text fault file_path new_content d with
          | (d', None) => (d', [Applied direct_fixes])
          | (d', Some e) => (d', [ForceError e])
          end
        else (d, [WouldApply direct_fixes])
      else (d, [])
  end.

(** The branch [if args.fix_file:] of [main]; [fault1] concerns the write of
    [fix_file], [fault2] the write of force mode. *)
Definition main_fix_file (a : args) (fault1 fault2 : option write_fault)
    (d : gmap string file) : gmap string file * list report * option exn :=
  let fixer := new_fixer (arg_dry_run a) (arg_verbose a) in
  match fix_file fixer fault1 d (arg_fix_file a) with
  | (_, d, Raises e) => (d, [], Some e)
  | (_, d, Returns file_path was_fixed fix_counts) =>
      let out :=
        if arg_dry_run a && bool_decide (0 < fix_counts !!! "total")%Z
        then [WouldFix (fix_counts !!! "total")]
        else if was_fixed then [Fixed (fix_counts !!! "total")]
        else [NoIssues] in
      if arg_force a && negb was_fixed then
        let r := force_mode a fault2 d file_path in
        (r.1, out ++ ForceActivated :: r.2, None)
      else (d, out, None)
  end.

(** What follows the slash in a match of [pattern3]: white space, then a
    letter. *)
Definition spaced_letter (t : text) : bool :=
  (1 <=? length (leading [Space] t))%nat
  && match beyond [Space] t with
     | l :: _ => in_cset alpha l
     | [] => false
     end.

Definition slash_then_letter (s : text) : bool :=
  match s with
  | x :: t => N.eqb x slash && spaced_letter t
  | [] => false
  end.

(** The rules of [fix_file], each with the name the source gives its
    expression. *)
Definition catalog : list rule :=
  [Rule "pattern1" pattern1 double_slash;
   Rule "pattern1a" pattern1 double_slash;
   Rule "pattern2" pattern2 title_comment;
   Rule "pattern3" pattern3 inner_slash;
   Rule "pattern4" pattern4 comment_out;
   Rule "pattern5" pattern5 comment_out;
   Rule "pattern6" pattern6 double_slash].

(** What a returned tally must look like: the nine keys, counts that are
    not negative, and a total that is the sum of the other eight. *)
Definition tally_ok (d : gmap string Z) : Prop :=
  dom d = category_keys /\
  (forall k v, d !! k = Some v -> (0 <= v)%Z) /\
  d !!! "total" =
    (d !!! "section_headers" + d !!! "section_titles" + d !!! "object_comments"
     + d !!! "naked_headers" + d !!! "section_dividers"
     + d !!! "multiline_sections" + d !!! "mixed_slash_headers"
     + d !!! "standalone_slashes")%Z.

(** *** The convergence driver as the specification words it

    Not in the source: the pass (here the whole of [fix_content]) is run again
    on its own output until it makes no substitution or [cap] passes are done,
    and the tallies of the passes are added key by key. *)

Definition add_tally (d1 d2 : gmap string Z) : gmap string Z :=
  union_with (fun x y => Some (x + y)%Z) d1 d2.

Fixpoint converge (cap : nat) (t : text) (acc : gmap string Z)
    : text * gmap string Z :=
  match cap with
  | O => (t, acc)
  | S cap' =>
      let r := fix_content t in
      if bool_decide (r.2 !!! "total" = 0%Z) then (r.1, add_tally acc r.2)
      else converge cap' r.1 (add_tally acc r.2)
  end.

Definition Normalize_spec (t : text) : text * gmap string Z :=
  converge 3 t fix_counts0.

End CommentFixer.

(** ** fix_ts_comments.py *)

Module FixTsComments.
Import Re Files.

(** [^ \/ ( \s* =+ )] *)
Definition pattern1 : pattern :=
  [Bol; Lit slash; Open; Rep 0 [Space]; Rep 1 [Ch equals]; Close].

(** [^ \/ ( \s+ [A-Z] [A-Z0-9 _-]+ )] *)
Definition pattern2 : pattern :=
  [Bol; Lit slash; Open; Rep 1 [Space]; One CommentFixer.upper;
   Rep 1 CommentFixer.title; Close].

(** [( \/ \/ \s* =+ ) \s* \n ( [A-Z] [A-Z0-9 _-]+ ) \s* \n ( \/ \/ \s* =+ )] *)
Definition pattern3 : pattern :=
  [Open; Lit slash; Lit slash; Rep 0 [Space]; Rep 1 [Ch equals]; Close;
   Rep 0 [Space]; Lit nl;
   Open; One CommentFixer.upper; Rep 1 CommentFixer.title; Close;
   Rep 0 [Space]; Lit nl;
   Open; Lit slash; Lit slash; Rep 0 [Space]; Rep 1 [Ch equals]; Close].

(** [( \s+ ) \/ ( \s+ [A-Za-z] )] *)
Definition pattern4 : pattern :=
  [Open; Rep 1 [Space]; Close; Lit slash; Open; Rep 1 [Space];
   One CommentFixer.alpha; Close].

(** [^ ( [A-Z] [A-Z0-9 _-]{5,} ) $] *)
Definition pattern5 : pattern :=
  [Bol; Open; One CommentFixer.upper; Rep 5 CommentFixer.title; Close; Eol].

(** [^ ( =+ ) $] *)
Definition pattern6 : pattern :=
  [Bol; Open; Rep 1 [Ch equals]; Close; Eol].

(** The replacements are those of ts-comment-fixer.py: [//\1] for
    [pattern1] and [pattern2], [\1\n// \2\n\3] for [pattern3], [\1//\2] for
    [pattern4] and [// \1] for [pattern5] and [pattern6]. *)
Definition catalog : list rule :=
  [Rule "pattern1" pattern1 CommentFixer.double_slash;
   Rule "pattern2" pattern2 CommentFixer.double_slash;
   Rule "pattern3" pattern3 CommentFixer.title_comment;
   Rule "pattern4" pattern4 CommentFixer.inner_slash;
   Rule "pattern5" pattern5 CommentFixer.comment_out;
   Rule "pattern6" pattern6 CommentFixer.comment_out].

(** The substitutions of [fix_file], in order. *)
Definition fix_content (content : text) : text :=
  let content := sub pattern1 CommentFixer.double_slash content in
  let content := sub pattern2 CommentFixer.double_slash content in
  let content := sub pattern3 CommentFixer.title_comment content in
  let content := sub pattern4 CommentFixer.inner_slash content in
  let content := sub pattern5 CommentFixer.comment_out content in
  sub pattern6 CommentFixer.comment_out content.

(** [fix_file]: read, substitute, write back when the text changed; any
    exception is caught and the pair [(file_path, False)] returned. *)
Definition fix_file (fault : option write_fault) (d : gmap string file)
    (file_path : string) : gmap string file * (string * bool) :=
  match read_text d file_path with
  | inl e => (d, (file_path, false))
  | inr original_content =>
      let content := fix_content original_content in
      if bool_decide (content <> original_content) then
        match write_text fault file_path content d with
        | (d', None) => (d', (file_path, true))
        | (d', Some e) => (d', (file_path, false))
        end
      else (d, (file_path, false))
  end.

End FixTsComments.

(** * Properties *)

Import Re Files CommentFixer.

(** Closed computations on maps and texts are checked by evaluation. *)
Ltac vm_refl :=
  lazymatch goal with
  | |- @eq ?A ?a ?b => vm_cast_no_check (@eq_refl A b)
  end.

(** ** The tally *)

Section TallyFold.
Context (f : Z -> Z -> Z).

(** The tally computations, over an uninterpreted operation: the keys are
    concrete, so the maps compute. *)
Lemma bumps_gen n1 n2 n3 n4 n5 n6 n7 n8 n9 :
  let up key n (d : gmap string Z) := <[key := f (d !!! key) n]> d in
  up "section_headers" n9 (up "section_headers" n8 (up "section_headers" n7
    (up "section_dividers" n6 (up "naked_headers" n5 (up "object_comments" n4
    (up "multiline_sections" n3 (up "standalone_slashes" n2
    (up "standalone_slashes" n1 fix_counts0))))))))
  = tally (f (f (f 0 n7) n8) n9) 0 (f 0 n4) (f 0 n5) (f 0 n6) (f 0 n3) 0
          (f (f 0 n1) n2) 0.
Proof. intros up. vm_refl. Qed.

Lemma fold_tally_gen z a b c d e g h i t :
  map_fold (fun k v acc => if decide (k = "total") then acc else f acc v) z
           (tally a b c d e g h i t)
  = f (f (f (f (f (f (f (f z d) h) g) i) a) e) b) c.
Proof. vm_refl. Qed.

End TallyFold.

Lemma bumps n1 n2 n3 n4 n5 n6 n7 n8 n9 :
  bump "section_headers" n9 (bump "section_headers" n8 (bump "section_headers" n7
    (bump "section_dividers" n6 (bump "naked_headers" n5 (bump "object_comments" n4
    (bump "multiline_sections" n3 (bump "standalone_slashes" n2
    (bump "standalone_slashes" n1 fix_counts0))))))))
  = tally (n7 + n8 + n9) 0 n4 n5 n6 n3 0 (n1 + n2) 0.
Proof. unfold bump. rewrite (bumps_gen Z.add). by rewrite !Z.add_0_l. Qed.

Lemma sum_tally a b c d e g h i t :
  sum_but_total (tally a b c d e g h i t) = (a + b + c + d + e + g + h + i)%Z.
Proof. unfold sum_but_total. rewrite (fold_tally_gen Z.add). lia. Qed.

Lemma total_tally a b c d e g h i t x :
  <["total" := x]> (tally a b c d e g h i t) = tally a b c d e g h i x.
Proof. vm_refl. Qed.

Lemma dom_tally a b c d e g h i t : dom (tally a b c d e g h i t) = category_keys.
Proof. vm_refl. Qed.

Lemma zeroed_tally a b c d e g h i t : zeroed (tally a b c d e g h i t) = fix_counts0.
Proof. vm_refl. Qed.

(** The tally of [fix_content], rule application by rule application. *)
Lemma fix_content_unfold (t : text) :
  let c1 := sub pattern1 double_slash t in
  let c2 := sub pattern1 double_slash c1 in
  let c3 := sub pattern2 title_comment c2 in
  let c4 := sub pattern3 inner_slash c3 in
  let c5 := sub pattern4 comment_out c4 in
  let c6 := sub pattern5 comment_out c5 in
  let c7 := sub pattern6 double_slash c6 in
  let c8 := sub pattern6 double_slash c7 in
  let c9 := sub pattern6 double_slash c8 in
  let headers := (count pattern6 c6 + count pattern6 c7 + count pattern6 c8)%Z in
  let slashes := (count pattern1 t + count pattern1 c1)%Z in
  fix_content t =
    (c9, tally headers 0 (count pattern3 c3) (count pattern4 c4) (count pattern5 c5)
               (count pattern2 c2) 0 slashes
               (headers + 0 + count pattern3 c3 + count pattern4 c4
                + count pattern5 c5 + count pattern2 c2 + 0 + slashes)).
Proof.
  intros. unfold fix_content, apply_rule. cbn [foldl seq fst snd].
  rewrite bumps, sum_tally, total_tally. reflexivity.
Qed.

Lemma count_nonneg p s : (0 <= count p s)%Z.
Proof. unfold count. lia. Qed.

Lemma tally_lookup a b c d e g h i t k v :
  tally a b c d e g h i t !! k = Some v ->
  v = a \/ v = b \/ v = c \/ v = d \/ v = e \/ v = g \/ v = h \/ v = i \/ v = t.
Proof.
  unfold tally. cbn [list_to_map foldr uncurry Datatypes.uncurry fst snd].
  rewrite !lookup_insert, lookup_empty.
  repeat case_decide; intros; simplify_eq; tauto.
Qed.

Lemma tally_ok_sum a b c d e g h i :
  (0 <= a)%Z -> (0 <= b)%Z -> (0 <= c)%Z -> (0 <= d)%Z -> (0 <= e)%Z ->
  (0 <= g)%Z -> (0 <= h)%Z -> (0 <= i)%Z ->
  tally_ok (tally a b c d e g h i (a + b + c + d + e + g + h + i)).
Proof.
  intros. split; [apply dom_tally|]. split.
  - intros k v Hk. apply tally_lookup in Hk. lia.
  - vm_refl.
Qed.

Lemma tally_ok_zero : tally_ok fix_counts0.
Proof. apply (tally_ok_sum 0 0 0 0 0 0 0 0); lia. Qed.

Lemma fix_content_tally_ok (t : text) : tally_ok (fix_content t).2.
Proof.
  pose proof (fix_content_unfold t) as E. cbv zeta in E. rewrite E. cbn [snd].
  apply tally_ok_sum; repeat apply Z.add_nonneg_nonneg;
    first [apply count_nonneg | lia].
Qed.

Lemma zeroed_fix_content (t : text) : zeroed (fix_content t).2 = fix_counts0.
Proof.
  pose proof (fix_content_unfold t) as E. cbv zeta in E. rewrite E. cbn [snd].
  apply zeroed_tally.
Qed.

(** ** [fix_file] *)

(** C10: on a file that can be read, [fix_file] returns, and the tally it
    returns has exactly the nine category keys, holds no negative count, and
    its total is the sum of the eight other counts. *)
Theorem fix_file_tally_shape (self : fixer) (fault : option write_fault)
    (d : gmap string file) (path : string) (content : text) :
  read_text d path = inr content ->
  exists was_fixed fix_counts,
    (fix_file self fault d path).2 = Returns path was_fixed fix_counts /\
    tally_ok fix_counts.
Proof.
  intros Hread. unfold fix_file. rewrite Hread.
  pose proof (fix_content_tally_ok content) as Hok.
  pose proof (zeroed_fix_content content) as Hz.
  destruct (fix_content content) as [new fix_counts]. cbn [snd] in *.
  destruct (bool_decide (new <> content)), (dry_run self); cbn [andb negb].
  - eauto.
  - destruct fault as [[|n]|]; cbn; rewrite ?Hz; eauto using tally_ok_zero.
  - rewrite Hz. eauto using tally_ok_zero.
  - rewrite Hz. eauto using tally_ok_zero.
Qed.

Lemma fix_file_tally_shape_witness :
  exists was_fixed fix_counts,
    (fix_file (new_fixer false false) None {["a.ts" := Utf8 (str "/ x")]} "a.ts").2
      = Returns "a.ts" was_fixed fix_counts /\
    tally_ok fix_counts.
Proof.
  apply (fix_file_tally_shape _ _ _ _ (str "/ x")). reflexivity.
Defined.

(** The exception of one worker ends the collection loop of
    [process_directory], whatever the other workers returned. *)
Lemma collect_raises (self : fixer) (results : list outcome) (e : exn) :
  In (Raises e) results -> exists e', (collect self results).2 = Some e'.
Proof.
  revert self. induction results as [|r results IH]; intros self Hin; [easy|].
  destruct r as [file_path was_fixed fix_counts|e0]; cbn.
  - destruct Hin as [Hin|Hin]; [discriminate|]. apply IH, Hin.
  - eauto.
Qed.

(** C2 (the code does not do this): when the read fails, the handler of
    [fix_file] records the error and then reads the local [fix_counts], which
    was never bound; the call raises instead of returning, the file is left
    as it was, and the loop of [process_directory] that collects the results
    of the batch raises too, wherever this result comes in the batch. *)
Theorem fix_file_read_failure_raises (self : fixer) (fault : option write_fault)
    (d : gmap string file) (path : string) (e : exn) :
  read_text d path = inl e ->
  (fix_file self fault d path).2 = Raises (UnboundLocalError "fix_counts") /\
  error_files (fix_file self fault d path).1.1 !! path = Some e /\
  (fix_file self fault d path).1.2 = d /\
  forall parent before after,
    exists e', (collect parent (before ++ (fix_file self fault d path).2 :: after)).2
               = Some e'.
Proof.
  intros Hread. unfold fix_file. rewrite Hread. cbn.
  split; [reflexivity|]. split; [apply lookup_insert_eq|].
  split; [reflexivity|].
  intros parent before after.
  apply (collect_raises _ _ (UnboundLocalError "fix_counts")).
  apply in_or_app. right. by left.
Qed.

Lemma fix_file_read_failure_raises_witness :
  (fix_file (new_fixer false false) None ∅ "missing.ts").2
    = Raises (UnboundLocalError "fix_counts") /\
  error_files (fix_file (new_fixer false false) None ∅ "missing.ts").1.1
    !! "missing.ts" = Some FileNotFoundError /\
  (fix_file (new_fixer false false) None ∅ "missing.ts").1.2 = ∅ /\
  forall parent before after,
    exists e', (collect parent
                  (before ++ (fix_file (new_fixer false false) None ∅ "missing.ts").2
                   :: after)).2 = Some e'.
Proof.
  apply (fix_file_read_failure_raises _ _ _ _ FileNotFoundError). reflexivity.
Defined.

(** The older script does return here: its handler reads no local
    variable. *)
Lemma fix_ts_fix_file_read_failure (fault : option write_fault)
    (d : gmap string file) (path : string) (e : exn) :
  read_text d path = inl e ->
  FixTsComments.fix_file fault d path = (d, (path, false)).
Proof. intros Hread. unfold FixTsComments.fix_file. by rewrite Hread. Qed.




(** C7: in dry-run mode nothing is written.  [fix_file] and the single-file
    branch of [main], force mode included, leave every file as it was, and
    what they return, record and print is the same whatever would have
    happened to a write. *)
Theorem dry_run_never_writes (self : fixer) (a : args)
    (fault1 fault2 : option write_fault) (d : gmap string file) (path : string) :
  dry_run self = true ->
  arg_dry_run a = true ->
  (fix_file self fault1 d path).1.2 = d /\
  fix_file self fault1 d path = fix_file self None d path /\
  (main_fix_file a fault1 fault2 d).1.1 = d /\
  main_fix_file a fault1 fault2 d = main_fix_file a None None d.
Proof.
  intros Hself Ha.
  assert (Hfix : forall self' f p, dry_run self' = true ->
            (fix_file self' f d p).1.2 = d /\
            fix_file self' f d p = fix_file self' None d p).
  { intros self' f p Hdry. unfold fix_file. rewrite Hdry.
    destruct (read_text d p) as [e|original]; [easy|].
    destruct (fix_content original) as [new fix_counts].
    rewrite andb_false_r. by destruct (bool_decide (new <> original)). }
  destruct (Hfix self fault1 path Hself) as [H1 H2].
  split; [exact H1|]. split; [exact H2|].
  unfold main_fix_file.
  destruct (Hfix (new_fixer (arg_dry_run a) (arg_verbose a)) fault1
              (arg_fix_file a)) as [H3 H4]; [by rewrite Ha|].
  rewrite H4 in H3 |- *.
  destruct (fix_file (new_fixer (arg_dry_run a) (arg_verbose a)) None d
              (arg_fix_file a)) as [[self' d'] [fp wf fc|e]];
    cbn in H3; subst d'; [|easy].
  unfold force_mode. rewrite Ha. cbn [negb].
  destruct (arg_force a && negb wf); [|easy].
  destruct (read_text d fp) as [e|content]; [easy|].
  destruct (force_lines content) as [lines direct_fixes].
  by destruct (bool_decide (0 < direct_fixes)%Z).
Qed.

Lemma dry_run_never_writes_witness :
  let d : gmap string file := {["a.ts" := Utf8 (str "/ x")]} in
  let a := Args true false "a.ts" true in
  let f := Some (WriteFails 0) in
  (fix_file (new_fixer true false) f d "a.ts").1.2 = d /\
  fix_file (new_fixer true false) f d "a.ts"
    = fix_file (new_fixer true false) None d "a.ts" /\
  (main_fix_file a f f d).1.1 = d /\
  main_fix_file a f f d = main_fix_file a None None d.
Proof.
  intros d a f.
  apply (dry_run_never_writes (new_fixer true false) a f f d "a.ts");
    reflexivity.
Defined.

(** ** Force mode *)












(** ** The concrete scenarios *)



(** C5 as stated fails: the blank that ends the first line is not kept. *)
Lemma title_scenario_counterexample :
  (fix_content (str "/ === " ++ [nl] ++ str "TITLE" ++ [nl] ++ str "// ===" ++ [nl])).1
  <> str "// === " ++ [nl] ++ str "// TITLE" ++ [nl] ++ str "// ===" ++ [nl].
Proof. vm_compute. discriminate. Qed.

(** C5, amended: the three lines "/ === " (with its blank), "TITLE" and
    "// ===" become "// ===" (the blank is dropped), "// TITLE" and "// ===";
    the tally counts one substitution under [standalone_slashes] and one under
    [multiline_sections], total 2. *)
Theorem title_scenario :
  fix_content (str "/ === " ++ [nl] ++ str "TITLE" ++ [nl] ++ str "// ===" ++ [nl])
  = (str "// ===" ++ [nl] ++ str "// TITLE" ++ [nl] ++ str "// ===" ++ [nl],
     tally 0 0 0 0 0 1 0 1 2).
Proof. vm_refl. Qed.

(** ** One pass, no convergence loop *)

(** C6 as stated fails: on a divider without slashes followed by a title and
    a divider, [fix_file] stops after its one pass although that pass made a
    substitution and a second pass would make another one. *)
Lemma no_convergence_loop_counterexample :
  let t := str "=" ++ [nl] ++ str "AB" ++ [nl] ++ str "//=" in
  (fix_content t).2 !!! "total" = 1%Z /\
  (fix_content (fix_content t).1).2 !!! "total" = 1%Z /\
  (fix_content t).1 <> (Normalize_spec t).1.
Proof.
  intros t. split; [vm_refl|]. split; [vm_refl|]. vm_compute. discriminate.
Qed.

(** C6, amended: [fix_file] applies its rules in one fixed sequence and so
    always ends: [pattern1] twice, [pattern2] to [pattern5] once each, and
    [pattern6] three times whatever it matched.  Each count of the tally is
    the sum of the match counts of the applications of its rule, and the
    total is the sum of all nine applications. *)
Theorem fix_content_single_pass (t : text) :
  let c1 := sub pattern1 double_slash t in
  let c2 := sub pattern1 double_slash c1 in
  let c3 := sub pattern2 title_comment c2 in
  let c4 := sub pattern3 inner_slash c3 in
  let c5 := sub pattern4 comment_out c4 in
  let c6 := sub pattern5 comment_out c5 in
  let c7 := sub pattern6 double_slash c6 in
  let c8 := sub pattern6 double_slash c7 in
  let c9 := sub pattern6 double_slash c8 in
  let d := (fix_content t).2 in
  (fix_content t).1 = c9 /\
  d !!! "standalone_slashes" = (count pattern1 t + count pattern1 c1)%Z /\
  d !!! "multiline_sections" = count pattern2 c2 /\
  d !!! "object_comments" = count pattern3 c3 /\
  d !!! "naked_headers" = count pattern4 c4 /\
  d !!! "section_dividers" = count pattern5 c5 /\
  d !!! "section_headers"
    = (count pattern6 c6 + count pattern6 c7 + count pattern6 c8)%Z /\
  d !!! "section_titles" = 0%Z /\
  d !!! "mixed_slash_headers" = 0%Z /\
  d !!! "total"
    = (count pattern1 t + count pattern1 c1 + count pattern2 c2
       + count pattern3 c3 + count pattern4 c4 + count pattern5 c5
       + count pattern6 c6 + count pattern6 c7 + count pattern6 c8)%Z.
Proof.
  intros. subst d. pose proof (fix_content_unfold t) as E. cbv zeta in E.
  rewrite E. cbn [fst snd].
  split; [reflexivity|]. repeat (split; [vm_refl|]).
  match goal with |- ?l = _ => assert (l = (count pattern6 c6 + count pattern6 c7
      + count pattern6 c8 + 0 + count pattern3 c3 + count pattern4 c4
      + count pattern5 c5 + count pattern2 c2 + 0
      + (count pattern1 t + count pattern1 c1))%Z) as -> by vm_refl end.
  lia.
Qed.

(** ** Running the pipeline twice *)

(** C1 as stated fails: the output for a divider without slashes, a title
    and a divider is changed by a second run, which counts one more
    substitution. *)
Lemma not_idempotent_counterexample :
  let t := str "=" ++ [nl] ++ str "AB" ++ [nl] ++ str "//=" in
  (fix_content t).1 = str "// =" ++ [nl] ++ str "AB" ++ [nl] ++ str "//=" /\
  (fix_content (fix_content t).1).1
    = str "// =" ++ [nl] ++ str "// AB" ++ [nl] ++ str "//=" /\
  fix_content (fix_content t).1 <> ((fix_content t).1, fix_counts0) /\
  FixTsComments.fix_content (FixTsComments.fix_content t)
    <> FixTsComments.fix_content t.
Proof.
  intros t. split; [vm_refl|]. split; [vm_refl|]. split.
  - intros H. apply (f_equal fst) in H. vm_compute in H. discriminate.
  - vm_compute. discriminate.
Qed.

(** ** The scan *)

Lemma ctx_app (prev : option char) (a b : text) :
  ctx prev (a ++ b) = ctx (ctx prev a) b.
Proof. revert prev. induction a as [|c a IH]; intros prev; cbn; auto. Qed.

Lemma ctx_snoc (prev : option char) (a : text) (c : char) :
  ctx prev (a ++ [c]) = Some c.
Proof. by rewrite ctx_app. Qed.

Lemma leading_beyond (cs : cset) (s : text) : leading cs s ++ beyond cs s = s.
Proof.
  induction s as [|c s IH]; cbn; [reflexivity|].
  destruct (in_cset cs c); cbn; congruence.
Qed.

Lemma leading_all (cs : cset) (s : text) : Forall (fun c => in_cset cs c = true) (leading cs s).
Proof.
  induction s as [|c s IH]; cbn; [constructor|].
  destruct (in_cset cs c) eqn:E; by constructor.
Qed.

Lemma beyond_head (cs : cset) (s : text) (c : char) (s' : text) :
  beyond cs s = c :: s' -> in_cset cs c = false.
Proof.
  induction s as [|d s IH]; cbn; [discriminate|].
  destruct (in_cset cs d) eqn:E; [exact IH|]. intros [= -> _]. exact E.
Qed.

Lemma leading_app (cs : cset) (a b : text) :
  Forall (fun c => in_cset cs c = true) a ->
  leading cs (a ++ b) = a ++ leading cs b.
Proof. induction 1 as [|c a Hc _ IH]; cbn; [reflexivity|]. by rewrite Hc, IH. Qed.

Lemma beyond_app (cs : cset) (a b : text) :
  Forall (fun c => in_cset cs c = true) a ->
  beyond cs (a ++ b) = beyond cs b.
Proof. induction 1 as [|c a Hc _ IH]; cbn; [reflexivity|]. by rewrite Hc, IH. Qed.

Lemma take_leading (cs : cset) (s : text) :
  take (length s - length (beyond cs s)) s = leading cs s.
Proof.
  rewrite <- (leading_beyond cs s) at 1 3.
  rewrite length_app.
  replace (length (leading cs s) + length (beyond cs s) - length (beyond cs s))%nat
    with (length (leading cs s)) by lia.
  by rewrite take_app_length.
Qed.

(** A greedy repetition whose continuation refuses the characters of the
    class takes the whole run or fails. *)
Lemma rep_rejecting (cs : cset) (k : kont) (min : nat) (prev : option char)
    (s : text) (g : caps) :
  (forall prev' c s' g', in_cset cs c = true -> k prev' (c :: s') g' = None) ->
  rep cs k min prev s g
  = if (min <=? length (leading cs s))%nat
    then k (ctx prev (leading cs s)) (beyond cs s) g else None.
Proof.
  intros Hrej. revert min prev.
  induction s as [|c s IH]; intros min prev; cbn.
  - by destruct min.
  - destruct (in_cset cs c) eqn:E; cbn.
    + rewrite IH.
      destruct min as [|min]; cbn; rewrite ?Hrej by exact E;
        repeat case_match; done.
    + by destruct min.
Qed.

(** A greedy repetition whose continuation accepts after the whole run
    stops there. *)
Lemma rep_accepting (cs : cset) (k : kont) (min : nat) (prev : option char)
    (s : text) (g : caps) (r : found) :
  (min <= length (leading cs s))%nat ->
  k (ctx prev (leading cs s)) (beyond cs s) g = Some r ->
  rep cs k min prev s g = Some r.
Proof.
  revert min prev. induction s as [|c s IH]; intros min prev Hmin Hk; cbn in *.
  - by destruct min; [|lia].
  - destruct (in_cset cs c) eqn:E; cbn in *.
    + rewrite (IH (pred min) (Some c)); [reflexivity | lia | exact Hk].
    + by destruct min; [|lia].
Qed.

Lemma rep_short (cs : cset) (k : kont) (min : nat) (prev : option char)
    (s : text) (g : caps) :
  (length (leading cs s) < min)%nat -> rep cs k min prev s g = None.
Proof.
  revert min prev. induction s as [|c s IH]; intros min prev Hmin; cbn in *.
  - by destruct min; [lia|].
  - destruct (in_cset cs c) eqn:E; cbn in *.
    + rewrite IH by lia. by destruct min; [lia|].
    + by destruct min; [lia|].
Qed.

Lemma scan_skip (p : pattern) (n : nat) :
  forall (prev : option char) (s : text),
    (n <= length s)%nat ->
    scan p n prev s = scan p 0 (ctx prev (take n s)) (drop n s).
Proof.
  induction n as [|n IH]; intros prev s Hn.
  - by rewrite take_0, drop_0.
  - destruct s as [|c s]; cbn in Hn; [lia|]. cbn. apply IH. lia.
Qed.

Lemma scan_keep (p : pattern) (prev : option char) (c : char) (s : text) :
  match_at p prev (c :: s) = None ->
  scan p 0 prev (c :: s) = Keep c :: scan p 0 (Some c) s.
Proof. intros H. cbn. by rewrite H. Qed.

Lemma scan_hit (p : pattern) (prev : option char) (a : text) (m : found) :
  a <> [] ->
  match_at p prev (a ++ rest m) = Some m ->
  scan p 0 prev (a ++ rest m) = Hit m :: scan p 0 (ctx prev a) (rest m).
Proof.
  intros Ha Hm. destruct a as [|c a]; [done|].
  change ((c :: a) ++ rest m) with (c :: a ++ rest m) in *.
  cbn [scan]. rewrite Hm.
  replace (length (c :: a ++ rest m) - length (rest m))%nat with (S (length a))
    by (cbn; rewrite length_app; lia).
  rewrite scan_skip by (rewrite length_app; lia).
  by rewrite take_app_length, drop_app_length.
Qed.

Lemma sub_from_nil (p : pattern) (tpl : template) (prev : option char) :
  match_at p prev [] = None -> sub_from p tpl prev [] = [].
Proof. intros H. unfold sub_from. cbn. by rewrite H. Qed.

Lemma sub_from_keep (p : pattern) (tpl : template) (prev : option char)
    (c : char) (s : text) :
  match_at p prev (c :: s) = None ->
  sub_from p tpl prev (c :: s) = c :: sub_from p tpl (Some c) s.
Proof. intros H. unfold sub_from. by rewrite scan_keep. Qed.

Lemma sub_from_hit (p : pattern) (tpl : template) (prev : option char)
    (a : text) (m : found) :
  a <> [] ->
  match_at p prev (a ++ rest m) = Some m ->
  sub_from p tpl prev (a ++ rest m)
  = expand tpl m ++ sub_from p tpl (ctx prev a) (rest m).
Proof. intros Ha H. unfold sub_from. by rewrite scan_hit. Qed.

(** Characters at which no match starts are copied. *)
Lemma sub_from_keep_prefix (p : pattern) (tpl : template) (a : text) :
  forall (prev : option char) (b : text),
    (forall a1 x a2, a = a1 ++ x :: a2 ->
       match_at p (ctx prev a1) (x :: a2 ++ b) = None) ->
    sub_from p tpl prev (a ++ b) = a ++ sub_from p tpl (ctx prev a) b.
Proof.
  induction a as [|c a IH]; intros prev b H; [reflexivity|].
  cbn [app]. rewrite sub_from_keep by apply (H [] c a eq_refl).
  cbn [ctx]. rewrite IH; [reflexivity|].
  intros a1 x a2 ->. apply (H (c :: a1) x a2 eq_refl).
Qed.

Lemma quiet_nil (p : pattern) (prev : option char) :
  match_at p prev [] = None -> quiet p prev [].
Proof. intros H. unfold quiet. cbn. by rewrite H. Qed.

Lemma quiet_cons (p : pattern) (prev : option char) (c : char) (s : text) :
  match_at p prev (c :: s) = None -> quiet p (Some c) s -> quiet p prev (c :: s).
Proof. unfold quiet. intros H Hs. rewrite scan_keep by exact H. by rewrite Hs. Qed.

Lemma quiet_cons_inv (p : pattern) (prev : option char) (c : char) (s : text) :
  quiet p prev (c :: s) -> match_at p prev (c :: s) = None /\ quiet p (Some c) s.
Proof.
  unfold quiet. cbn [scan map].
  destruct (match_at p prev (c :: s)) as [m|].
  - case_match; discriminate.
  - intros [= H]. auto.
Qed.

Lemma quiet_app (p : pattern) (a : text) :
  forall (prev : option char) (b : text),
    (forall a1 x a2, a = a1 ++ x :: a2 ->
       match_at p (ctx prev a1) (x :: a2 ++ b) = None) ->
    quiet p (ctx prev a) b ->
    quiet p prev (a ++ b).
Proof.
  induction a as [|c a IH]; intros prev b H Hb; [exact Hb|].
  cbn [app]. apply quiet_cons; [apply (H [] c a eq_refl)|].
  apply IH; [|exact Hb]. intros a1 x a2 ->. apply (H (c :: a1) x a2 eq_refl).
Qed.

Lemma quiet_app_inv_r (p : pattern) (a : text) :
  forall (prev : option char) (b : text),
    quiet p prev (a ++ b) -> quiet p (ctx prev a) b.
Proof.
  induction a as [|c a IH]; intros prev b H; [exact H|].
  apply quiet_cons_inv in H as [_ H]. by apply IH.
Qed.

Lemma quiet_sub_from (p : pattern) (tpl : template) (prev : option char) (s : text) :
  quiet p prev s -> sub_from p tpl prev s = s.
Proof.
  unfold quiet, sub_from. intros ->. unfold render.
  induction s as [|c s IH]; cbn; congruence.
Qed.

Lemma quiet_sub (p : pattern) (tpl : template) (s : text) :
  quiet p None s -> sub p tpl s = s.
Proof. apply quiet_sub_from. Qed.

Lemma quiet_count (p : pattern) (s : text) : quiet p None s -> count p s = 0%Z.
Proof.
  unfold quiet, count, findall, tokens. intros ->.
  induction s as [|c s IH]; cbn in *; [reflexivity | exact IH].
Qed.

Lemma count_quiet (p : pattern) (s : text) : count p s = 0%Z -> quiet p None s.
Proof.
  unfold count, findall, tokens, quiet. generalize (@None char).
  induction s as [|c s IH]; intros prev; cbn.
  - destruct (match_at p prev []); [discriminate | reflexivity].
  - destruct (match_at p prev (c :: s)) as [m|].
    + case_match; discriminate.
    + cbn. intros H. by rewrite IH.
Qed.

(** A criterion for a rule to leave nothing for a second application. *)
Section Criterion.
Context (p : pattern) (tpl : template).

Hypothesis no_empty_match : forall prev, match_at p prev [] = None.

Hypothesis match_shape : forall prev s m,
  match_at p prev s = Some m ->
  exists a,
    s = a ++ rest m /\ a <> [] /\
    ctx prev (expand tpl m) = ctx prev a /\
    forall e1 x e2 t, expand tpl m = e1 ++ x :: e2 ->
      match_at p (ctx prev e1) (x :: e2 ++ t) = None.

Hypothesis stable : forall prev c s,
  match_at p prev (c :: s) = None ->
  match_at p prev (c :: sub_from p tpl (Some c) s) = None.

Lemma sub_from_quiet_bounded (n : nat) :
  forall (prev : option char) (s : text),
    (length s <= n)%nat -> quiet p prev (sub_from p tpl prev s).
Proof.
  induction n as [|n IH]; intros prev s Hlen.
  - destruct s; [|cbn in Hlen; lia].
    rewrite sub_from_nil by apply no_empty_match.
    apply quiet_nil, no_empty_match.
  - destruct s as [|c s].
    { rewrite sub_from_nil by apply no_empty_match.
      apply quiet_nil, no_empty_match. }
    destruct (match_at p prev (c :: s)) as [m|] eqn:Hm.
    + destruct (match_shape _ _ _ Hm) as (a & Hs & Ha & Hctx & Hin).
      rewrite Hs in Hm |- *. rewrite sub_from_hit by assumption.
      apply quiet_app.
      * intros e1 x e2 He. by apply Hin.
      * rewrite Hctx. apply IH.
        apply (f_equal length) in Hs. rewrite length_app in Hs. cbn in Hs, Hlen.
        destruct a; [done|]. cbn in Hs. lia.
    + rewrite sub_from_keep by exact Hm.
      apply quiet_cons; [by apply stable|].
      apply IH. cbn in Hlen. lia.
Qed.

Lemma criterion_idempotent (s : text) :
  sub p tpl (sub p tpl s) = sub p tpl s /\ count p (sub p tpl s) = 0%Z.
Proof.
  assert (H : quiet p None (sub p tpl s))
    by apply (sub_from_quiet_bounded (length s) None s (le_n _)).
  split; [by apply quiet_sub | by apply quiet_count].
Qed.
End Criterion.

(** ** Character classes *)

(** Turn the tests on characters into arithmetic. *)
Ltac chars :=
  unfold in_cset, upper, title, alpha, at_eol, at_bol in *;
  cbn [existsb in_atom] in *;
  unfold is_space, between, nl, slash, equals, space in *;
  repeat match goal with
         | H : _ = false |- _ => apply not_true_iff_false in H
         | |- _ = false => apply not_true_iff_false
         end;
  rewrite ?orb_false_r in *;
  rewrite ?orb_true_iff, ?andb_true_iff, ?negb_true_iff, ?N.leb_le, ?N.eqb_eq,
          ?N.eqb_neq in *;
  try lia.


Lemma at_eol_beyond (cs : cset) (s : text) :
  in_cset cs nl = false -> (forall c, in_cset cs c = false -> c = nl) ->
  at_eol (beyond cs s) = true.
Proof.
  intros _ H. destruct (beyond cs s) as [|c s'] eqn:E; [reflexivity|].
  apply beyond_head in E. apply H in E. by subst.
Qed.

(** ** What each expression matches *)

Lemma match_pattern1 (prev : option char) (s : text) :
  match_at pattern1 prev s
  = if at_bol prev && startswith [slash] s && negb (startswith [slash; slash] s)
    then Some (Found [leading [NotNl] (drop 1 s)] (beyond [NotNl] (drop 1 s)))
    else None.
Proof.
  unfold match_at, pattern1. cbn [run].
  destruct (at_bol prev); [|reflexivity].
  destruct s as [|c t]; [reflexivity|]. cbn [startswith drop andb].
  rewrite (N.eqb_sym slash c). destruct (N.eqb c slash); [|reflexivity].
  cbn [andb].
  assert (E : rep [NotNl]
            (run [Close; Eol] (fun _ s' g => Some (Found (rev (closed g)) s')))
            0 (Some c) t (open_group t no_caps)
          = Some (Found [leading [NotNl] t] (beyond [NotNl] t))).
  { rewrite rep_rejecting.
    - cbn [Nat.leb run]. rewrite at_eol_beyond; [|reflexivity|intros d Hd; chars].
      cbn. by rewrite take_leading.
    - intros prev' d s' g' Hd. cbn [run].
      replace (at_eol (d :: s')) with false; [reflexivity|]. symmetry. chars. }
  destruct t as [|d t']; [exact E|].
  cbn [startswith]. rewrite (N.eqb_sym slash d), andb_true_r.
  destruct (N.eqb d slash); [reflexivity | exact E].
Qed.

Lemma take_cons_leading (cs : cset) (c : char) (t : text) :
  take (length (c :: t) - length (beyond cs t)) (c :: t) = c :: leading cs t.
Proof.
  pose proof (take_leading cs t) as H.
  assert (length (beyond cs t) <= length t)%nat.
  { rewrite <- (leading_beyond cs t) at 2. rewrite length_app. lia. }
  replace (length (c :: t) - length (beyond cs t))%nat
    with (S (length t - length (beyond cs t))) by (cbn; lia).
  cbn. by rewrite H.
Qed.

Lemma match_pattern5 (prev : option char) (s : text) :
  match_at pattern5 prev s
  = if at_bol prev && (1 <=? length (leading [Ch equals] s))%nat
       && at_eol (beyond [Ch equals] s)
    then Some (Found [leading [Ch equals] s] (beyond [Ch equals] s))
    else None.
Proof.
  unfold match_at, pattern5. cbn [run].
  destruct (at_bol prev); [|reflexivity]. cbn [andb].
  rewrite rep_rejecting.
  - destruct (1 <=? length (leading [Ch equals] s))%nat; [|reflexivity].
    cbn [run andb]. destruct (at_eol (beyond [Ch equals] s)); [|reflexivity].
    cbn. by rewrite take_leading.
  - intros prev' d s' g' Hd. cbn [run].
    replace (at_eol (d :: s')) with false; [reflexivity|]. symmetry. chars.
Qed.

Lemma match_pattern4 (prev : option char) (s : text) :
  match_at pattern4 prev s
  = match s with
    | c :: t =>
        if at_bol prev && in_cset upper c
           && (5 <=? length (leading title t))%nat && at_eol (beyond title t)
        then Some (Found [c :: leading title t] (beyond title t))
        else None
    | [] => None
    end.
Proof.
  unfold match_at, pattern4. cbn [run].
  destruct (at_bol prev); [|by destruct s]. cbn [andb].
  destruct s as [|c t]; [reflexivity|].
  destruct (in_cset upper c); [|reflexivity]. cbn [andb].
  rewrite rep_rejecting.
  - destruct (5 <=? length (leading title t))%nat; [|reflexivity].
    cbn [run andb]. destruct (at_eol (beyond title t)); [|reflexivity].
    cbn [close_group open_group opened closed no_caps rev app].
    by rewrite take_cons_leading.
  - intros prev' d s' g' Hd. cbn [run].
    replace (at_eol (d :: s')) with false; [reflexivity|]. symmetry. chars.
Qed.

Lemma take_two_runs (cs1 cs2 : cset) (t : text) :
  take (length t - length (beyond cs2 (beyond cs1 t))) t
  = leading cs1 t ++ leading cs2 (beyond cs1 t).
Proof.
  pose proof (leading_beyond cs1 t) as H1.
  pose proof (leading_beyond cs2 (beyond cs1 t)) as H2.
  set (l1 := leading cs1 t) in *. set (b1 := beyond cs1 t) in *.
  set (l2 := leading cs2 b1) in *. set (b2 := beyond cs2 b1) in *.
  clearbody l1 b1 l2 b2. subst.
  rewrite app_assoc.
  replace (length ((l1 ++ l2) ++ b2) - length b2)%nat with (length (l1 ++ l2))
    by (rewrite !length_app; lia).
  by rewrite take_app_length.
Qed.

Lemma match_pattern6 (prev : option char) (s : text) :
  match_at pattern6 prev s
  = if at_bol prev && startswith [slash] s
       && (1 <=? length (leading [Ch equals] (beyond [Space] (drop 1 s))))%nat
    then Some (Found [leading [Space] (drop 1 s)
                        ++ leading [Ch equals] (beyond [Space] (drop 1 s))]
                     (beyond [Ch equals] (beyond [Space] (drop 1 s))))
    else None.
Proof.
  unfold match_at, pattern6. cbn [run].
  destruct (at_bol prev); [|reflexivity]. cbn [andb].
  destruct s as [|c t]; [reflexivity|]. cbn [startswith andb].
  change (drop 1 (c :: t)) with t.
  rewrite (N.eqb_sym slash c). destruct (N.eqb c slash); [|reflexivity].
  cbn [andb].
  rewrite rep_rejecting.
  - change (0 <=? length (leading [Space] t))%nat with true. cbv iota.
    destruct (1 <=? length (leading [Ch equals] (beyond [Space] t)))%nat eqn:E.
    + erewrite rep_accepting; [reflexivity | by apply Nat.leb_le |].
      cbn. by rewrite take_two_runs.
    + apply rep_short. by apply Nat.leb_gt.
  - intros prev' d s' g' Hd. cbn [rep].
    replace (in_cset [Ch equals] d) with false; [reflexivity|]. symmetry. chars.
Qed.

Lemma take_run_and_more (cs : cset) (t r : text) (a : text) :
  beyond cs t = a ++ r ->
  take (length t - length r) t = leading cs t ++ a.
Proof.
  intros H. pose proof (leading_beyond cs t) as H1. rewrite H in H1.
  set (l1 := leading cs t) in *. clearbody l1. subst t.
  rewrite app_assoc.
  replace (length ((l1 ++ a) ++ r) - length r)%nat with (length (l1 ++ a))
    by (rewrite !length_app; lia).
  by rewrite take_app_length.
Qed.

Lemma match_pattern3 (prev : option char) (s : text) :
  match_at pattern3 prev s
  = if (1 <=? length (leading [Space] s))%nat then
      match beyond [Space] s with
      | x :: t =>
          if N.eqb x slash && (1 <=? length (leading [Space] t))%nat then
            match beyond [Space] t with
            | l :: r =>
                if in_cset alpha l
                then Some (Found [leading [Space] s; leading [Space] t ++ [l]] r)
                else None
            | [] => None
            end
          else None
      | [] => None
      end
    else None.
Proof.
  unfold match_at, pattern3. cbn [run].
  rewrite rep_rejecting.
  2:{ intros prev' d s' g' Hd. cbn [run].
      replace (N.eqb d slash) with false; [reflexivity|]. symmetry. chars. }
  destruct (1 <=? length (leading [Space] s))%nat; [|reflexivity].
  cbn [run]. destruct (beyond [Space] s) as [|x t] eqn:Es; [reflexivity|].
  destruct (N.eqb x slash); [|reflexivity]. cbn [andb].
  rewrite rep_rejecting.
  2:{ intros prev' d s' g' Hd. cbn [run].
      replace (in_cset alpha d) with false; [reflexivity|]. symmetry. chars. }
  destruct (1 <=? length (leading [Space] t))%nat; [|reflexivity].
  cbn [run]. destruct (beyond [Space] t) as [|l r] eqn:Et; [reflexivity|].
  destruct (in_cset alpha l); [|reflexivity].
  cbn [close_group open_group opened closed no_caps rev app].
  rewrite <- Es, take_leading.
  by rewrite (take_run_and_more [Space] t r [l]).
Qed.

Lemma match_fix_ts_pattern2 (prev : option char) (s : text) :
  match_at FixTsComments.pattern2 prev s
  = if at_bol prev && startswith [slash] s
       && (1 <=? length (leading [Space] (drop 1 s)))%nat then
      match beyond [Space] (drop 1 s) with
      | u :: r =>
          if in_cset upper u && (1 <=? length (leading title r))%nat
          then Some (Found [leading [Space] (drop 1 s) ++ u :: leading title r]
                           (beyond title r))
          else None
      | [] => None
      end
    else None.
Proof.
  unfold match_at, FixTsComments.pattern2. cbn [run].
  destruct (at_bol prev); [|reflexivity]. cbn [andb].
  destruct s as [|c t]; [reflexivity|]. cbn [startswith andb].
  change (drop 1 (c :: t)) with t.
  rewrite (N.eqb_sym slash c). destruct (N.eqb c slash); [|reflexivity].
  cbn [andb].
  rewrite rep_rejecting.
  2:{ intros prev' d s' g' Hd. cbn [run].
      replace (in_cset upper d) with false; [reflexivity|]. symmetry. chars. }
  destruct (1 <=? length (leading [Space] t))%nat; [|reflexivity].
  cbn [run]. destruct (beyond [Space] t) as [|u r] eqn:Et; [reflexivity|].
  destruct (in_cset upper u); [|reflexivity]. cbn [andb].
  destruct (1 <=? length (leading title r))%nat eqn:E.
  - erewrite rep_accepting; [reflexivity | by apply Nat.leb_le |].
    cbn [run close_group open_group opened closed no_caps rev app].
    rewrite (take_run_and_more [Space] t (beyond title r) (u :: leading title r));
      [reflexivity|].
    rewrite Et. cbn [app]. by rewrite leading_beyond.
  - apply rep_short. by apply Nat.leb_gt.
Qed.

(** ** Rules that leave nothing for a second application *)

Lemma ctx_not_bol (a : text) :
  forall prev, at_bol prev = false -> Forall (fun c => c <> nl) a ->
    at_bol (ctx prev a) = false.
Proof.
  induction a as [|c a IH]; intros prev Hp Ha; [exact Hp|].
  inversion Ha; subst. cbn. apply IH; [|assumption]. cbn. by apply N.eqb_neq.
Qed.

Lemma leading_not_nl (cs : cset) (s : text) :
  in_cset cs nl = false -> Forall (fun c => c <> nl) (leading cs s).
Proof.
  intros Hnl. eapply Forall_impl; [apply leading_all|].
  intros c Hc ->. cbn in Hc. congruence.
Qed.

Lemma Forall_app_l {A} (P : A -> Prop) (a b : list A) :
  Forall P (a ++ b) -> Forall P a.
Proof. rewrite Forall_app. tauto. Qed.

(** [pattern1] with [//\1]. *)
Lemma pattern1_shape (prev : option char) (s : text) (m : found) :
  match_at pattern1 prev s = Some m ->
  exists a,
    s = a ++ rest m /\ a <> [] /\
    ctx prev (expand double_slash m) = ctx prev a /\
    forall e1 x e2 t, expand double_slash m = e1 ++ x :: e2 ->
      match_at pattern1 (ctx prev e1) (x :: e2 ++ t) = None.
Proof.
  rewrite match_pattern1.
  destruct (at_bol prev) eqn:Hb; [|discriminate].
  destruct s as [|c t]; [discriminate|]. cbn [startswith].
  destruct (N.eqb_spec slash c) as [<-|]; [|discriminate].
  cbn [andb]. change (drop 1 (slash :: t)) with t.
  destruct (negb _); [|discriminate]. intros [= <-]. cbn [rest groups].
  exists (slash :: leading [NotNl] t).
  split; [cbn; by rewrite leading_beyond|]. split; [done|].
  cbn [expand double_slash flat_map nth pred app]. rewrite app_nil_r.
  split; [reflexivity|].
  intros e1 x e2 tx He. rewrite match_pattern1.
  destruct e1 as [|y1 e1]; [injection He as <- <-; cbn; by rewrite andb_false_r|].
  destruct e1 as [|y2 e1]; [injection He as <- <- <-; reflexivity|].
  injection He as <- <- He. cbn [ctx].
  rewrite ctx_not_bol; [reflexivity | reflexivity |].
  apply (Forall_app_l _ _ (x :: e2)). rewrite <- He.
  by apply leading_not_nl.
Qed.

Lemma pattern1_stable (prev : option char) (c : char) (s : text) :
  match_at pattern1 prev (c :: s) = None ->
  match_at pattern1 prev (c :: sub_from pattern1 double_slash (Some c) s) = None.
Proof.
  rewrite !match_pattern1.
  destruct (at_bol prev); [|reflexivity]. cbn [startswith andb].
  destruct (N.eqb_spec slash c) as [<-|]; [|reflexivity]. cbn [andb].
  destruct s as [|d s].
  - cbn. discriminate.
  - rewrite sub_from_keep by (by rewrite match_pattern1).
    cbn [startswith]. by destruct (N.eqb slash d).
Qed.

Lemma pattern1_idempotent (s : text) :
  sub pattern1 double_slash (sub pattern1 double_slash s)
    = sub pattern1 double_slash s /\
  count pattern1 (sub pattern1 double_slash s) = 0%Z.
Proof.
  apply criterion_idempotent.
  - intros prev. rewrite match_pattern1. by rewrite andb_false_r.
  - apply pattern1_shape.
  - apply pattern1_stable.
Qed.

Lemma ctx_nonempty (a : text) (p q : option char) : a <> [] -> ctx p a = ctx q a.
Proof. by destruct a. Qed.

Lemma in_cset_not_nl (cs : cset) (c : char) :
  in_cset cs nl = false -> in_cset cs c = true -> c <> nl.
Proof. intros H Hc ->. congruence. Qed.

(** Expressions that start with [^] match at the start of a line only. *)
Section Anchored.
Context (p : pattern) (tpl : template).
Hypothesis anchored : forall prev s, at_bol prev = false -> match_at p prev s = None.

Lemma sub_from_line (a : text) (prev : option char) (b : text) :
  at_bol prev = false -> Forall (fun c => c <> nl) a ->
  sub_from p tpl prev (a ++ b) = a ++ sub_from p tpl (ctx prev a) b.
Proof.
  intros Hp Ha. apply sub_from_keep_prefix. intros a1 x a2 ->.
  apply anchored, ctx_not_bol; [exact Hp | by apply Forall_app_l in Ha].
Qed.

Lemma line_stable (cs : cset) (prev : option char) (s : text) :
  at_bol prev = false -> in_cset cs nl = false ->
  leading cs (sub_from p tpl prev s) = leading cs s /\
  at_eol (beyond cs (sub_from p tpl prev s)) = at_eol (beyond cs s).
Proof.
  intros Hp Hnl.
  rewrite <- (leading_beyond cs s) at 1 3.
  pose proof (leading_all cs s) as Hall.
  rewrite sub_from_line by first [exact Hp | by apply leading_not_nl].
  assert (Hc : at_bol (ctx prev (leading cs s)) = false)
    by (apply ctx_not_bol; [exact Hp | by apply leading_not_nl]).
  rewrite leading_app, beyond_app by exact Hall.
  destruct (beyond cs s) as [|d r] eqn:E.
  - rewrite sub_from_nil by (by apply anchored). cbn. by rewrite app_nil_r.
  - rewrite sub_from_keep by (by apply anchored).
    apply beyond_head in E. cbn. rewrite E. by rewrite app_nil_r.
Qed.
End Anchored.

Lemma pattern4_anchored prev s : at_bol prev = false -> match_at pattern4 prev s = None.
Proof. intros H. rewrite match_pattern4, H. by destruct s. Qed.

Lemma pattern5_anchored prev s : at_bol prev = false -> match_at pattern5 prev s = None.
Proof. intros H. by rewrite match_pattern5, H. Qed.

Lemma upper_not_nl c : in_cset upper c = true -> N.eqb c nl = false.
Proof. intros H. chars. Qed.

(** [pattern4] with [// \1]. *)
Lemma pattern4_shape (prev : option char) (s : text) (m : found) :
  match_at pattern4 prev s = Some m ->
  exists a,
    s = a ++ rest m /\ a <> [] /\
    ctx prev (expand comment_out m) = ctx prev a /\
    forall e1 x e2 t, expand comment_out m = e1 ++ x :: e2 ->
      match_at pattern4 (ctx prev e1) (x :: e2 ++ t) = None.
Proof.
  rewrite match_pattern4. destruct s as [|c t]; [discriminate|].
  destruct (at_bol prev); [|discriminate].
  destruct (in_cset upper c) eqn:Hc; [|discriminate].
  cbn [andb]. destruct (_ && _); [|discriminate]. intros [= <-]. cbn [rest groups].
  exists (c :: leading title t).
  split; [cbn; by rewrite leading_beyond|]. split; [done|].
  cbn [expand comment_out flat_map nth pred app]. rewrite app_nil_r.
  split; [reflexivity|].
  intros e1 x e2 tx He. rewrite match_pattern4.
  destruct e1 as [|y1 e1];
    [injection He as <- <-; cbn; by rewrite andb_false_r|].
  destruct e1 as [|y2 e1]; [by injection He as <- <- <-|].
  destruct e1 as [|y3 e1]; [by injection He as <- <- <- <-|].
  destruct e1 as [|y4 e1]; [by injection He as <- <- <- <- <-|].
  injection He as <- <- <- <- He. cbn [ctx].
  rewrite ctx_not_bol; [reflexivity | by apply upper_not_nl |].
  apply (Forall_app_l _ _ (x :: e2)). rewrite <- He.
  by apply leading_not_nl.
Qed.

Lemma pattern4_stable (prev : option char) (c : char) (s : text) :
  match_at pattern4 prev (c :: s) = None ->
  match_at pattern4 prev (c :: sub_from pattern4 comment_out (Some c) s) = None.
Proof.
  rewrite !match_pattern4.
  destruct (at_bol prev); [|reflexivity].
  destruct (in_cset upper c) eqn:Hc; [|reflexivity].
  destruct (line_stable pattern4 comment_out pattern4_anchored title (Some c) s)
    as [-> ->]; [by apply upper_not_nl | reflexivity | ].
  by destruct (_ && _).
Qed.

Lemma pattern4_idempotent (s : text) :
  sub pattern4 comment_out (sub pattern4 comment_out s)
    = sub pattern4 comment_out s /\
  count pattern4 (sub pattern4 comment_out s) = 0%Z.
Proof.
  apply criterion_idempotent.
  - intros prev. by rewrite match_pattern4.
  - apply pattern4_shape.
  - apply pattern4_stable.
Qed.

(** [pattern5] with [// \1]. *)
Lemma pattern5_shape (prev : option char) (s : text) (m : found) :
  match_at pattern5 prev s = Some m ->
  exists a,
    s = a ++ rest m /\ a <> [] /\
    ctx prev (expand comment_out m) = ctx prev a /\
    forall e1 x e2 t, expand comment_out m = e1 ++ x :: e2 ->
      match_at pattern5 (ctx prev e1) (x :: e2 ++ t) = None.
Proof.
  rewrite match_pattern5.
  destruct (at_bol prev); [|discriminate]. cbn [andb].
  destruct (1 <=? length (leading [Ch equals] s))%nat eqn:Hlen; [|discriminate].
  cbn [andb]. destruct (at_eol _); [|discriminate]. intros [= <-].
  cbn [rest groups].
  assert (Hne : leading [Ch equals] s <> []).
  { apply Nat.leb_le in Hlen. by destruct (leading [Ch equals] s); [cbn in Hlen; lia|]. }
  exists (leading [Ch equals] s).
  split; [by rewrite leading_beyond|]. split; [exact Hne|].
  cbn [expand comment_out flat_map nth pred app]. rewrite app_nil_r.
  split; [cbn [ctx]; by apply ctx_nonempty|].
  intros e1 x e2 tx He. rewrite match_pattern5.
  destruct e1 as [|y1 e1]; [injection He as <- <-; cbn; by rewrite andb_false_r|].
  destruct e1 as [|y2 e1]; [by injection He as <- <- <-|].
  destruct e1 as [|y3 e1]; [by injection He as <- <- <- <-|].
  injection He as <- <- <- He. cbn [ctx].
  rewrite ctx_not_bol; [reflexivity | reflexivity |].
  apply (Forall_app_l _ _ (x :: e2)). rewrite <- He.
  by apply leading_not_nl.
Qed.

Lemma pattern5_stable (prev : option char) (c : char) (s : text) :
  match_at pattern5 prev (c :: s) = None ->
  match_at pattern5 prev (c :: sub_from pattern5 comment_out (Some c) s) = None.
Proof.
  rewrite !match_pattern5.
  destruct (at_bol prev); [|reflexivity]. cbn [leading beyond].
  destruct (in_cset [Ch equals] c) eqn:Hc; [|reflexivity].
  destruct (line_stable pattern5 comment_out pattern5_anchored [Ch equals] (Some c) s)
    as [-> ->]; [chars | reflexivity | ].
  by destruct (_ && _).
Qed.

Lemma pattern5_idempotent (s : text) :
  sub pattern5 comment_out (sub pattern5 comment_out s)
    = sub pattern5 comment_out s /\
  count pattern5 (sub pattern5 comment_out s) = 0%Z.
Proof.
  apply criterion_idempotent.
  - intros prev. rewrite match_pattern5. by rewrite andb_false_r.
  - apply pattern5_shape.
  - apply pattern5_stable.
Qed.

Lemma leb_leading_head (cs : cset) (t : text) :
  (1 <=? length (leading cs t))%nat
  = match head t with Some c => in_cset cs c | None => false end.
Proof. destruct t as [|c t]; [reflexivity|]. cbn. by destruct (in_cset cs c). Qed.

Lemma startswith_head (x : char) (t : text) :
  startswith [x] t = match head t with Some c => N.eqb x c | None => false end.
Proof. destruct t as [|c t]; [reflexivity|]. cbn. by rewrite andb_true_r. Qed.

(** Expressions whose matches start with a slash, replaced by a text that
    starts with a slash. *)
Section SlashLed.
Context (p : pattern) (tpl : template).
Hypothesis led : forall prev s m,
  match_at p prev s = Some m ->
  startswith [slash] s = true /\ startswith [slash] (expand tpl m) = true /\
  exists a, a <> [] /\ s = a ++ rest m.

Lemma led_nil (prev : option char) : match_at p prev [] = None.
Proof.
  destruct (match_at p prev []) as [m|] eqn:E; [|reflexivity].
  by apply led in E as [? _].
Qed.

Lemma led_other (prev : option char) (c : char) (s : text) :
  c <> slash -> match_at p prev (c :: s) = None.
Proof.
  intros Hc. destruct (match_at p prev (c :: s)) as [m|] eqn:E; [|reflexivity].
  apply led in E as [E _]. rewrite startswith_head in E. cbn [head] in E.
  apply N.eqb_eq in E. congruence.
Qed.

Lemma sub_from_run (cs : cset) (prev : option char) (s : text) :
  in_cset cs slash = false ->
  sub_from p tpl prev s
  = leading cs s ++ sub_from p tpl (ctx prev (leading cs s)) (beyond cs s).
Proof.
  intros Hcs. rewrite <- (leading_beyond cs s) at 1.
  apply sub_from_keep_prefix. intros a1 x a2 Ha.
  apply led_other. intros ->.
  pose proof (leading_all cs s) as Hall. rewrite Ha in Hall.
  apply Forall_app in Hall as [_ Hall]. inversion Hall; subst. congruence.
Qed.

Lemma sub_from_head (prev : option char) (s : text) :
  head (sub_from p tpl prev s) = head s.
Proof.
  destruct s as [|c s]; [by rewrite sub_from_nil by apply led_nil|].
  destruct (match_at p prev (c :: s)) as [m|] eqn:E.
  - destruct (led _ _ _ E) as (Hs & He & a & Ha & Hsplit).
    rewrite Hsplit in E |- *. rewrite sub_from_hit by assumption.
    rewrite <- Hsplit.
    rewrite startswith_head in Hs, He. cbn [head] in Hs.
    destruct (expand tpl m) as [|e0 e]; [discriminate|]. cbn [head app] in He |- *.
    apply N.eqb_eq in Hs, He. congruence.
  - by rewrite sub_from_keep.
Qed.

Lemma run_head_stable (cs : cset) (prev : option char) (s : text) :
  in_cset cs slash = false ->
  leading cs (sub_from p tpl prev s) = leading cs s /\
  beyond cs (sub_from p tpl prev s)
    = sub_from p tpl (ctx prev (leading cs s)) (beyond cs s) /\
  head (beyond cs (sub_from p tpl prev s)) = head (beyond cs s).
Proof.
  intros Hcs. rewrite (sub_from_run cs prev s Hcs).
  rewrite leading_app, beyond_app by apply leading_all.
  pose proof (sub_from_head (ctx prev (leading cs s)) (beyond cs s)) as Hh.
  destruct (beyond cs s) as [|d r] eqn:E.
  - rewrite sub_from_nil by apply led_nil. cbn. by rewrite app_nil_r.
  - apply beyond_head in E.
    destruct (sub_from p tpl (ctx prev (leading cs s)) (d :: r)) as [|d' r'];
      [discriminate|].
    injection Hh as ->. cbn. rewrite E. by rewrite app_nil_r.
Qed.
End SlashLed.

(** [pattern6] with [//\1]. *)
Lemma pattern6_led (prev : option char) (s : text) (m : found) :
  match_at pattern6 prev s = Some m ->
  startswith [slash] s = true /\
  startswith [slash] (expand double_slash m) = true /\
  exists a, a <> [] /\ s = a ++ rest m.
Proof.
  rewrite match_pattern6.
  destruct (at_bol prev); [|discriminate].
  destruct s as [|c t]; [discriminate|]. cbn [startswith andb].
  destruct (N.eqb_spec slash c) as [<-|]; [|discriminate].
  change (drop 1 (slash :: t)) with t. cbn [andb].
  destruct (1 <=? _)%nat; [|discriminate]. intros [= <-].
  split; [reflexivity|]. split; [reflexivity|].
  exists (slash :: leading [Space] t ++ leading [Ch equals] (beyond [Space] t)).
  split; [done|]. cbn. by rewrite <- app_assoc, !leading_beyond.
Qed.

Lemma pattern6_shape (prev : option char) (s : text) (m : found) :
  match_at pattern6 prev s = Some m ->
  exists a,
    s = a ++ rest m /\ a <> [] /\
    ctx prev (expand double_slash m) = ctx prev a /\
    forall e1 x e2 t, expand double_slash m = e1 ++ x :: e2 ->
      match_at pattern6 (ctx prev e1) (x :: e2 ++ t) = None.
Proof.
  rewrite match_pattern6.
  destruct (at_bol prev); [|discriminate].
  destruct s as [|c t]; [discriminate|]. cbn [startswith andb].
  destruct (N.eqb_spec slash c) as [<-|]; [|discriminate].
  change (drop 1 (slash :: t)) with t. cbn [andb].
  destruct (1 <=? _)%nat; [|discriminate]. intros [= <-]. cbn [rest groups].
  set (w := leading [Space] t). set (q := leading [Ch equals] (beyond [Space] t)).
  exists (slash :: w ++ q).
  split; [cbn; subst w q; by rewrite <- app_assoc, !leading_beyond|].
  split; [done|].
  cbn [expand double_slash flat_map nth pred app]. rewrite app_nil_r.
  split; [reflexivity|].
  intros e1 x e2 tx He.
  destruct e1 as [|y1 e1].
  { injection He as <- <-. rewrite match_pattern6. cbn. by rewrite andb_false_r. }
  destruct e1 as [|y2 e1].
  { injection He as <- <- <-. by rewrite match_pattern6. }
  injection He as <- <- He.
  apply (led_other pattern6 double_slash pattern6_led). intros ->.
  assert (Hall : Forall (fun c => in_cset [Space] c = true \/ in_cset [Ch equals] c = true)
                   (w ++ q)).
  { apply Forall_app. split; (eapply Forall_impl; [apply leading_all|]); cbn; tauto. }
  rewrite He in Hall. apply Forall_app in Hall as [_ Hall].
  inversion Hall as [|? ? [H|H] _]; subst; discriminate.
Qed.

Lemma pattern6_stable (prev : option char) (c : char) (s : text) :
  match_at pattern6 prev (c :: s) = None ->
  match_at pattern6 prev (c :: sub_from pattern6 double_slash (Some c) s) = None.
Proof.
  rewrite !match_pattern6.
  destruct (at_bol prev); [|reflexivity]. cbn [startswith andb].
  destruct (N.eqb slash c); [|reflexivity]. cbn [andb].
  change (drop 1 (c :: ?t)) with t.
  destruct (run_head_stable pattern6 double_slash pattern6_led [Space] (Some c) s)
    as (_ & _ & Hh); [reflexivity|].
  rewrite !leb_leading_head, Hh. by destruct (head (beyond [Space] s)) as [d|]; [destruct (in_cset _ d)|].
Qed.

Lemma pattern6_idempotent (s : text) :
  sub pattern6 double_slash (sub pattern6 double_slash s)
    = sub pattern6 double_slash s /\
  count pattern6 (sub pattern6 double_slash s) = 0%Z.
Proof.
  apply criterion_idempotent.
  - apply (led_nil pattern6 double_slash pattern6_led).
  - apply pattern6_shape.
  - apply pattern6_stable.
Qed.

(** [pattern2] of fix_ts_comments.py with [//\1]. *)
Lemma fix_ts_pattern2_led (prev : option char) (s : text) (m : found) :
  match_at FixTsComments.pattern2 prev s = Some m ->
  startswith [slash] s = true /\
  startswith [slash] (expand double_slash m) = true /\
  exists a, a <> [] /\ s = a ++ rest m.
Proof.
  rewrite match_fix_ts_pattern2.
  destruct (at_bol prev); [|discriminate].
  destruct s as [|c t]; [discriminate|]. cbn [startswith andb].
  destruct (N.eqb_spec slash c) as [<-|]; [|discriminate].
  change (drop 1 (slash :: t)) with t. cbn [andb].
  destruct (1 <=? _)%nat; [|discriminate].
  destruct (beyond [Space] t) as [|u r] eqn:Et; [discriminate|].
  destruct (_ && _); [|discriminate]. intros [= <-].
  split; [reflexivity|]. split; [reflexivity|].
  exists (slash :: leading [Space] t ++ u :: leading title r).
  split; [done|]. cbn. rewrite <- app_assoc. cbn.
  by rewrite leading_beyond, <- Et, leading_beyond.
Qed.

Lemma fix_ts_pattern2_shape (prev : option char) (s : text) (m : found) :
  match_at FixTsComments.pattern2 prev s = Some m ->
  exists a,
    s = a ++ rest m /\ a <> [] /\
    ctx prev (expand double_slash m) = ctx prev a /\
    forall e1 x e2 t, expand double_slash m = e1 ++ x :: e2 ->
      match_at FixTsComments.pattern2 (ctx prev e1) (x :: e2 ++ t) = None.
Proof.
  rewrite match_fix_ts_pattern2.
  destruct (at_bol prev); [|discriminate].
  destruct s as [|c t]; [discriminate|]. cbn [startswith andb].
  destruct (N.eqb_spec slash c) as [<-|]; [|discriminate].
  change (drop 1 (slash :: t)) with t. cbn [andb].
  destruct (1 <=? _)%nat; [|discriminate].
  destruct (beyond [Space] t) as [|u r] eqn:Et; [discriminate|].
  destruct (in_cset upper u) eqn:Hu; [|discriminate]. cbn [andb].
  destruct (1 <=? _)%nat; [|discriminate]. intros [= <-]. cbn [rest groups].
  set (w := leading [Space] t). set (q := leading title r).
  exists (slash :: w ++ u :: q).
  split.
  { cbn. rewrite <- app_assoc. cbn. subst w q.
    by rewrite leading_beyond, <- Et, leading_beyond. }
  split; [done|].
  cbn [expand double_slash flat_map nth pred app]. rewrite app_nil_r.
  split; [reflexivity|].
  intros e1 x e2 tx He.
  destruct e1 as [|y1 e1].
  { injection He as <- <-. rewrite match_fix_ts_pattern2. cbn.
    by rewrite andb_false_r. }
  destruct e1 as [|y2 e1].
  { injection He as <- <- <-. by rewrite match_fix_ts_pattern2. }
  injection He as <- <- He.
  apply (led_other _ double_slash fix_ts_pattern2_led). intros ->.
  assert (Hall : Forall (fun c => c <> slash) (w ++ u :: q)).
  { apply Forall_app. split; [|constructor].
    - eapply Forall_impl; [apply leading_all|]. intros d Hd ->. discriminate.
    - intros ->. discriminate.
    - eapply Forall_impl; [apply leading_all|]. intros d Hd ->. discriminate. }
  rewrite He in Hall. apply Forall_app in Hall as [_ Hall].
  by inversion Hall.
Qed.

Lemma fix_ts_pattern2_stable (prev : option char) (c : char) (s : text) :
  match_at FixTsComments.pattern2 prev (c :: s) = None ->
  match_at FixTsComments.pattern2 prev
    (c :: sub_from FixTsComments.pattern2 double_slash (Some c) s) = None.
Proof.
  rewrite !match_fix_ts_pattern2.
  destruct (at_bol prev); [|reflexivity]. cbn [startswith andb].
  destruct (N.eqb slash c); [|reflexivity]. cbn [andb].
  change (drop 1 (c :: ?t)) with t.
  destruct (run_head_stable _ double_slash fix_ts_pattern2_led [Space] (Some c) s)
    as (-> & -> & _); [reflexivity|].
  destruct (1 <=? _)%nat; [|reflexivity].
  set (prev' := ctx (Some c) (leading [Space] s)).
  destruct (beyond [Space] s) as [|u r].
  { by rewrite sub_from_nil by apply (led_nil _ _ fix_ts_pattern2_led). }
  destruct (in_cset upper u) eqn:Hu.
  - rewrite sub_from_keep
      by (apply (led_other _ _ fix_ts_pattern2_led); intros ->; discriminate).
    rewrite Hu, !leb_leading_head.
    rewrite (sub_from_head _ _ fix_ts_pattern2_led).
    by destruct (_ && _).
  - intros _.
    pose proof (sub_from_head _ _ fix_ts_pattern2_led prev' (u :: r)) as Hh.
    destruct (sub_from _ _ prev' (u :: r)); [reflexivity|].
    injection Hh as ->. by rewrite Hu.
Qed.

Lemma fix_ts_pattern2_idempotent (s : text) :
  sub FixTsComments.pattern2 double_slash
      (sub FixTsComments.pattern2 double_slash s)
    = sub FixTsComments.pattern2 double_slash s /\
  count FixTsComments.pattern2 (sub FixTsComments.pattern2 double_slash s) = 0%Z.
Proof.
  apply criterion_idempotent.
  - apply (led_nil _ double_slash fix_ts_pattern2_led).
  - apply fix_ts_pattern2_shape.
  - apply fix_ts_pattern2_stable.
Qed.

(** [pattern3] with [\1//\2]. *)
Lemma pattern3_none (prev : option char) (s : text) :
  match_at pattern3 prev s = None
  <-> (1 <=? length (leading [Space] s))%nat
      && slash_then_letter (beyond [Space] s) = false.
Proof.
  rewrite match_pattern3. unfold slash_then_letter, spaced_letter.
  destruct (1 <=? length (leading [Space] s))%nat; [|done]. cbn [andb].
  destruct (beyond [Space] s) as [|x t]; [done|].
  destruct (N.eqb x slash); [|done]. cbn [andb].
  destruct (1 <=? length (leading [Space] t))%nat; [|done]. cbn [andb].
  destruct (beyond [Space] t) as [|l r]; [done|].
  by destruct (in_cset alpha l).
Qed.

Lemma pattern3_other (prev : option char) (c : char) (s : text) :
  is_space c = false -> match_at pattern3 prev (c :: s) = None.
Proof.
  intros Hc. apply pattern3_none. cbn [leading in_cset existsb in_atom].
  by rewrite Hc.
Qed.

Lemma pattern3_nil (prev : option char) : match_at pattern3 prev [] = None.
Proof. by apply pattern3_none. Qed.

Lemma pattern3_space (prev : option char) (c : char) (s : text) :
  is_space c = true ->
  match_at pattern3 prev (c :: s) = None
  <-> slash_then_letter (beyond [Space] s) = false.
Proof.
  intros Hc. rewrite pattern3_none. cbn [leading beyond in_cset existsb in_atom].
  by rewrite Hc.
Qed.

Lemma pattern3_match (prev : option char) (s : text) (m : found) :
  match_at pattern3 prev s = Some m ->
  exists w w' l,
    s = w ++ slash :: w' ++ l :: rest m /\
    groups m = [w; w' ++ [l]] /\
    w <> [] /\ w' <> [] /\
    Forall (fun c => is_space c = true) w /\
    Forall (fun c => is_space c = true) w' /\
    in_cset alpha l = true.
Proof.
  rewrite match_pattern3.
  destruct (1 <=? length (leading [Space] s))%nat eqn:Hw; [|discriminate].
  destruct (beyond [Space] s) as [|x t] eqn:Es; [discriminate|].
  destruct (N.eqb_spec x slash) as [->|]; [|discriminate]. cbn [andb].
  destruct (1 <=? length (leading [Space] t))%nat eqn:Hw'; [|discriminate].
  destruct (beyond [Space] t) as [|l r] eqn:Et; [discriminate|].
  destruct (in_cset alpha l) eqn:Hl; [|discriminate]. intros [= <-].
  exists (leading [Space] s), (leading [Space] t), l. cbn [rest groups].
  assert (Hsp : forall u, Forall (fun c => is_space c = true) (leading [Space] u)).
  { intros u. eapply Forall_impl; [apply leading_all|]. intros c Hc.
    cbn in Hc. by rewrite orb_false_r in Hc. }
  repeat split; try apply Hsp; try assumption.
  - rewrite <- Et, leading_beyond, <- Es. by rewrite leading_beyond.
  - apply Nat.leb_le in Hw. intros E. rewrite E in Hw. cbn in Hw. lia.
  - apply Nat.leb_le in Hw'. intros E. rewrite E in Hw'. cbn in Hw'. lia.
Qed.

Lemma Forall_space_cset (w : text) :
  Forall (fun c => is_space c = true) w -> Forall (fun c => in_cset [Space] c = true) w.
Proof.
  intros H. eapply Forall_impl; [exact H|]. intros c Hc. cbn. by rewrite Hc.
Qed.

Lemma alpha_not_space l : in_cset alpha l = true -> in_cset [Space] l = false.
Proof. intros H. chars. Qed.

Lemma alpha_not_slash l : in_cset alpha l = true -> N.eqb l slash = false.
Proof. intros H. chars. Qed.

Lemma pattern3_hit (prev : option char) (s : text) (m : found) :
  match_at pattern3 prev s = Some m ->
  exists w w' l,
    s = w ++ slash :: w' ++ l :: rest m /\
    sub_from pattern3 inner_slash prev s
      = w ++ slash :: slash :: w' ++ l
          :: sub_from pattern3 inner_slash (Some l) (rest m) /\
    expand inner_slash m = w ++ slash :: slash :: w' ++ [l] /\
    w <> [] /\ w' <> [] /\
    Forall (fun c => in_cset [Space] c = true) w /\
    Forall (fun c => in_cset [Space] c = true) w' /\
    in_cset alpha l = true.
Proof.
  intros E.
  destruct (pattern3_match _ _ _ E)
    as (w & w' & l & Hs & Hg & Hw & Hw' & Fw & Fw' & Hl).
  exists w, w', l.
  assert (He : expand inner_slash m = w ++ slash :: slash :: w' ++ [l]).
  { unfold expand, inner_slash. cbn [flat_map nth pred]. rewrite Hg. cbn [nth].
    rewrite app_nil_r. reflexivity. }
  repeat split; try assumption; try by apply Forall_space_cset.
  assert (Ha : s = (w ++ slash :: w' ++ [l]) ++ rest m)
    by (rewrite Hs, <- !app_assoc; cbn; by rewrite <- app_assoc).
  rewrite Ha in E |- *. rewrite sub_from_hit; [|by destruct w|exact E].
  rewrite He, !ctx_app. cbn [ctx].
  rewrite <- !app_assoc. cbn. by rewrite <- !app_assoc, ctx_snoc.
Qed.

(** The white space that starts a text and the character after it survive
    the substitution. *)
Lemma pattern3_keeps_space (s : text) :
  forall prev,
    leading [Space] (sub_from pattern3 inner_slash prev s) = leading [Space] s /\
    head (beyond [Space] (sub_from pattern3 inner_slash prev s))
      = head (beyond [Space] s).
Proof.
  induction s as [|c s IH]; intros prev.
  { by rewrite sub_from_nil by apply pattern3_nil. }
  destruct (match_at pattern3 prev (c :: s)) as [m|] eqn:E.
  - destruct (pattern3_hit _ _ _ E)
      as (w & w' & l & Hs & Hout & _ & _ & _ & Fw & _ & _).
    rewrite Hout, Hs. rewrite !leading_app, !beyond_app by assumption.
    cbn [leading beyond].
    by change (in_cset [Space] slash) with false.
  - rewrite sub_from_keep by exact E.
    cbn [leading beyond]. destruct (in_cset [Space] c) eqn:Hc; [|done].
    destruct (IH (Some c)) as [-> ->]. done.
Qed.

Lemma spaced_letter_sub_from (prev : option char) (t : text) :
  spaced_letter (sub_from pattern3 inner_slash prev t) = spaced_letter t.
Proof.
  unfold spaced_letter. destruct (pattern3_keeps_space t prev) as [-> Hh].
  destruct (beyond [Space] (sub_from pattern3 inner_slash prev t)),
           (beyond [Space] t); cbn in Hh; congruence.
Qed.

(** Without a match at its start, the leading white space is copied. *)
Lemma pattern3_run (s : text) :
  forall prev,
    slash_then_letter (beyond [Space] s) = false ->
    sub_from pattern3 inner_slash prev s
    = leading [Space] s
      ++ sub_from pattern3 inner_slash (ctx prev (leading [Space] s))
                  (beyond [Space] s).
Proof.
  induction s as [|c s IH]; intros prev H; [reflexivity|].
  cbn [leading beyond] in *. destruct (in_cset [Space] c) eqn:Hc; [|reflexivity].
  rewrite sub_from_keep.
  - cbn [app ctx]. by rewrite IH.
  - apply pattern3_space; [|exact H]. cbn in Hc. by rewrite orb_false_r in Hc.
Qed.

Lemma pattern3_stable (prev : option char) (c : char) (s : text) :
  match_at pattern3 prev (c :: s) = None ->
  match_at pattern3 prev (c :: sub_from pattern3 inner_slash (Some c) s) = None.
Proof.
  destruct (is_space c) eqn:Hc; [|intros _; by apply pattern3_other].
  rewrite !pattern3_space by exact Hc. intros H.
  rewrite pattern3_run by exact H.
  rewrite beyond_app by apply leading_all.
  set (prev' := ctx (Some c) (leading [Space] s)).
  destruct (beyond [Space] s) as [|x t] eqn:Es.
  { by rewrite sub_from_nil by apply pattern3_nil. }
  apply beyond_head in Es.
  rewrite sub_from_keep
    by (apply pattern3_other; cbn in Es; by rewrite orb_false_r in Es).
  cbn [beyond]. rewrite Es. cbn [slash_then_letter] in *.
  by rewrite spaced_letter_sub_from.
Qed.

Lemma split_cases {A} (a b : list A) :
  forall (e1 : list A) (x : A) (e2 : list A),
    e1 ++ x :: e2 = a ++ b ->
    (exists a2, a = e1 ++ x :: a2 /\ e2 = a2 ++ b) \/
    (exists b1, e1 = a ++ b1 /\ b = b1 ++ x :: e2).
Proof.
  induction a as [|y a IH]; intros e1 x e2 H.
  - right. by exists e1.
  - destruct e1 as [|z e1].
    + injection H as <- ->. left. by exists a.
    + injection H as <- H. destruct (IH _ _ _ H) as [(a2 & -> & ->)|(b1 & -> & ->)].
      * left. by exists a2.
      * right. by exists b1.
Qed.

Lemma pattern3_none_run (prev : option char) (w : text) (x : char) (t : text) :
  Forall (fun c => in_cset [Space] c = true) w ->
  in_cset [Space] x = false ->
  N.eqb x slash && spaced_letter t = false ->
  match_at pattern3 prev (w ++ x :: t) = None.
Proof.
  intros Fw Hx H. apply pattern3_none.
  rewrite beyond_app by exact Fw. cbn [beyond]. rewrite Hx.
  cbn [slash_then_letter]. by rewrite H, andb_false_r.
Qed.

Lemma pattern3_shape (prev : option char) (s : text) (m : found) :
  match_at pattern3 prev s = Some m ->
  exists a,
    s = a ++ rest m /\ a <> [] /\
    ctx prev (expand inner_slash m) = ctx prev a /\
    forall e1 x e2 t, expand inner_slash m = e1 ++ x :: e2 ->
      match_at pattern3 (ctx prev e1) (x :: e2 ++ t) = None.
Proof.
  intros E.
  destruct (pattern3_hit _ _ _ E)
    as (w & w' & l & Hs & _ & He & Hw & Hw' & Fw & Fw' & Hl).
  exists (w ++ slash :: w' ++ [l]).
  split; [rewrite Hs, <- !app_assoc; cbn; by rewrite <- app_assoc|].
  split; [by destruct w|].
  split.
  { by rewrite He, !ctx_app. }
  intros e1 x e2 tx Hsplit. rewrite He in Hsplit. symmetry in Hsplit.
  apply split_cases in Hsplit as [(a2 & Hw2 & ->)|(b1 & -> & Hb)].
  - (* inside the first run of white space *)
    rewrite Hw2 in Fw. apply Forall_app in Fw as [_ Fw].
    rewrite <- app_assoc.
    apply (pattern3_none_run _ (x :: a2) slash); [exact Fw | reflexivity | reflexivity].
  - destruct b1 as [|y1 b1].
    { injection Hb as <- _. by apply pattern3_other. }
    destruct b1 as [|y2 b1].
    { injection Hb as _ <- _. by apply pattern3_other. }
    injection Hb as _ _ Hb. symmetry in Hb.
    apply split_cases in Hb as [(a2 & Hw2 & ->)|(b2 & -> & Hb)].
    + (* inside the second run *)
      rewrite Hw2 in Fw'. apply Forall_app in Fw' as [_ Fw'].
      rewrite <- app_assoc.
      apply (pattern3_none_run _ (x :: a2) l);
        [exact Fw' | by apply alpha_not_space |].
      by rewrite alpha_not_slash.
    + (* the letter *)
      destruct b2; [|by destruct b2].
      injection Hb as <- _. apply pattern3_other.
      apply alpha_not_space in Hl. cbn in Hl. by rewrite orb_false_r in Hl.
Qed.

Lemma pattern3_idempotent (s : text) :
  sub pattern3 inner_slash (sub pattern3 inner_slash s)
    = sub pattern3 inner_slash s /\
  count pattern3 (sub pattern3 inner_slash s) = 0%Z.
Proof.
  apply criterion_idempotent.
  - apply pattern3_nil.
  - apply pattern3_shape.
  - apply pattern3_stable.
Qed.

(** ** The rules one by one *)

(** The text that [fix_file] produces is the rules of the catalog applied in
    order, followed by two more applications of [pattern6]. *)
Lemma fix_content_catalog (t : text) :
  (fix_content t).1
  = foldl (fun s r => apply r s) t
          (catalog ++ [Rule "pattern6" pattern6 double_slash;
                       Rule "pattern6" pattern6 double_slash]).
Proof.
  pose proof (fix_content_unfold t) as E. cbv zeta in E. by rewrite E.
Qed.

Lemma fix_ts_content_catalog (t : text) :
  FixTsComments.fix_content t = foldl (fun s r => apply r s) t FixTsComments.catalog.
Proof. reflexivity. Qed.

(** C8 as stated fails for the title rule: on two banners that share their
    middle divider the first application comments the first title only, and
    a second application finds the second one. *)
Lemma title_rule_not_idempotent_counterexample :
  let t := str "// =" ++ [nl] ++ str "AB" ++ [nl] ++ str "// =" ++ [nl]
           ++ str "AB" ++ [nl] ++ str "// =" in
  In (Rule "pattern2" pattern2 title_comment) catalog /\
  sub pattern2 title_comment t
    = str "// =" ++ [nl] ++ str "// AB" ++ [nl] ++ str "// =" ++ [nl]
      ++ str "AB" ++ [nl] ++ str "// =" /\
  count pattern2 (sub pattern2 title_comment t) = 1%Z /\
  sub pattern2 title_comment (sub pattern2 title_comment t)
    <> sub pattern2 title_comment t.
Proof.
  intros t. split; [cbn; tauto|]. split; [vm_refl|]. split; [vm_refl|].
  vm_compute. discriminate.
Qed.

(** C8, amended: every rule of the two scripts other than the title rule
    ([pattern2] of ts-comment-fixer.py, which is [pattern3] of
    fix_ts_comments.py) is locally idempotent: applied to its own output it
    finds no match and returns the text unchanged. *)
Theorem rules_locally_idempotent (r : rule) (s : text) :
  In r (catalog ++ FixTsComments.catalog) ->
  rule_pattern r <> pattern2 ->
  apply r (apply r s) = apply r s /\
  count (rule_pattern r) (apply r s) = 0%Z.
Proof.
  intros Hin Hne. unfold apply. cbn in Hin.
  repeat (destruct Hin as [<-|Hin]); try (by destruct Hin); cbn [rule_pattern rule_template];
    try (by destruct Hne).
  - apply pattern1_idempotent.
  - apply pattern1_idempotent.
  - apply pattern3_idempotent.
  - apply pattern4_idempotent.
  - apply pattern5_idempotent.
  - apply pattern6_idempotent.
  - apply pattern6_idempotent.
  - apply fix_ts_pattern2_idempotent.
  - apply pattern3_idempotent.
  - apply pattern4_idempotent.
  - apply pattern5_idempotent.
Qed.

Lemma rules_locally_idempotent_witness :
  apply (Rule "pattern6" pattern6 double_slash)
        (apply (Rule "pattern6" pattern6 double_slash) (str "/ ==="))
    = apply (Rule "pattern6" pattern6 double_slash) (str "/ ===") /\
  count pattern6 (apply (Rule "pattern6" pattern6 double_slash) (str "/ ===")) = 0%Z.
Proof.
  apply (rules_locally_idempotent (Rule "pattern6" pattern6 double_slash)
           (str "/ ===")).
  - cbn. tauto.
  - vm_compute. discriminate.
Defined.

(** ** Fixed points of the pipeline *)

Lemma fix_content_parts (t : text) :
  exists c1 c2 c3 c4 c5 c6 c7 c8,
    c1 = sub pattern1 double_slash t /\
    c2 = sub pattern1 double_slash c1 /\
    c3 = sub pattern2 title_comment c2 /\
    c4 = sub pattern3 inner_slash c3 /\
    c5 = sub pattern4 comment_out c4 /\
    c6 = sub pattern5 comment_out c5 /\
    c7 = sub pattern6 double_slash c6 /\
    c8 = sub pattern6 double_slash c7 /\
    (fix_content t).1 = sub pattern6 double_slash c8 /\
    (fix_content t).2 !!! "total"
      = (count pattern1 t + count pattern1 c1 + count pattern2 c2
         + count pattern3 c3 + count pattern4 c4 + count pattern5 c5
         + count pattern6 c6 + count pattern6 c7 + count pattern6 c8)%Z.
Proof.
  pose proof (fix_content_unfold t) as E. cbv zeta in E.
  do 8 eexists. do 8 (split; [reflexivity|]). rewrite E. cbn [fst snd].
  split; [reflexivity|].
  match goal with |- tally _ _ _ _ _ _ _ _ ?x !!! _ = _ =>
    transitivity x; [vm_refl | lia] end.
Qed.

Lemma count_zero_sub (p : pattern) (tpl : template) (s : text) :
  count p s = 0%Z -> sub p tpl s = s.
Proof. intros H. by apply quiet_sub, count_quiet. Qed.

(** A pass that counts no substitution returns its input. *)
Lemma zero_tally_unchanged (t : text) :
  (fix_content t).2 !!! "total" = 0%Z -> (fix_content t).1 = t.
Proof.
  destruct (fix_content_parts t)
    as (c1 & c2 & c3 & c4 & c5 & c6 & c7 & c8
        & E1 & E2 & E3 & E4 & E5 & E6 & E7 & E8 & -> & ->).
  pose proof (count_nonneg pattern1 t). pose proof (count_nonneg pattern1 c1).
  pose proof (count_nonneg pattern2 c2). pose proof (count_nonneg pattern3 c3).
  pose proof (count_nonneg pattern4 c4). pose proof (count_nonneg pattern5 c5).
  pose proof (count_nonneg pattern6 c6). pose proof (count_nonneg pattern6 c7).
  pose proof (count_nonneg pattern6 c8).
  intros Hsum.
  rewrite count_zero_sub in E1 by lia. subst c1.
  rewrite count_zero_sub in E2 by lia. subst c2.
  rewrite count_zero_sub in E3 by lia. subst c3.
  rewrite count_zero_sub in E4 by lia. subst c4.
  rewrite count_zero_sub in E5 by lia. subst c5.
  rewrite count_zero_sub in E6 by lia. subst c6.
  rewrite count_zero_sub in E7 by lia. subst c7.
  rewrite count_zero_sub in E8 by lia. subst c8.
  apply count_zero_sub. lia.
Qed.

(** Bring concatenations to right-nested form. *)
Ltac list_norm :=
  repeat first [rewrite <- app_assoc | rewrite <- app_comm_cons
               | rewrite app_nil_r | rewrite app_nil_l].

(** ** The title rule *)

(** What a successful greedy repetition has read. *)
Lemma rep_sound (cs : cset) (k : kont) (s : text) :
  forall (min : nat) (prev : option char) (g : caps) (r : found),
    rep cs k min prev s g = Some r ->
    exists a b,
      s = a ++ b /\ Forall (fun c => in_cset cs c = true) a /\
      (min <= length a)%nat /\ k (ctx prev a) b g = Some r.
Proof.
  induction s as [|c s IH]; intros min prev g r H; cbn in H.
  - destruct min; [|discriminate]. exists [], []. by repeat split.
  - destruct (in_cset cs c) eqn:Hc.
    + destruct (rep cs k (pred min) (Some c) s g) as [r'|] eqn:E.
      * injection H as ->. apply IH in E as (a & b & -> & Fa & La & Hk).
        exists (c :: a), b. repeat split; [by constructor | cbn; lia | exact Hk].
      * destruct min; [|discriminate]. exists [], (c :: s). by repeat split.
    + destruct min; [|discriminate]. exists [], (c :: s). by repeat split.
Qed.

Lemma take_app_diff {A} (a b : list A) :
  take (length (a ++ b) - length b) (a ++ b) = a.
Proof.
  replace (length (a ++ b) - length b)%nat with (length a)
    by (rewrite length_app; lia).
  apply take_app_length.
Qed.

Lemma take_group {A} (g s' o : list A) (n : nat) :
  o = g ++ s' -> n = (length o - length s')%nat -> take n o = g.
Proof. intros -> ->. apply take_app_diff. Qed.

Lemma pattern2_match (prev : option char) (s : text) (m : found) :
  match_at pattern2 prev s = Some m ->
  exists w1 q1 v1 u tt v2 w3 q3,
    s = (slash :: slash :: w1 ++ q1) ++ v1 ++ nl :: (u :: tt) ++ v2
        ++ nl :: (slash :: slash :: w3 ++ q3) ++ rest m /\
    groups m = [slash :: slash :: w1 ++ q1; u :: tt; slash :: slash :: w3 ++ q3] /\
    Forall (fun c => in_cset [Space] c = true) w1 /\
    Forall (fun c => in_cset [Ch equals] c = true) q1 /\
    Forall (fun c => in_cset [Space] c = true) v1 /\
    in_cset upper u = true /\
    Forall (fun c => in_cset title c = true) tt /\
    Forall (fun c => in_cset [Space] c = true) v2 /\
    Forall (fun c => in_cset [Space] c = true) w3 /\
    Forall (fun c => in_cset [Ch equals] c = true) q3 /\
    q3 <> [].
Proof.
  unfold match_at, pattern2. cbn [run]. intros H.
  destruct s as [|c1 s]; [discriminate|].
  destruct (N.eqb_spec c1 slash) as [->|]; [|discriminate].
  destruct s as [|c2 s]; [discriminate|].
  destruct (N.eqb_spec c2 slash) as [->|]; [|discriminate].
  apply rep_sound in H as (w1 & b & -> & Fw1 & _ & H). cbn [run] in H.
  apply rep_sound in H as (q1 & b1 & -> & Fq1 & _ & H). cbn [run] in H.
  apply rep_sound in H as (v1 & b & -> & Fv1 & _ & H). cbn [run] in H.
  destruct b as [|c3 s]; [discriminate|].
  destruct (N.eqb_spec c3 nl) as [->|]; [|discriminate].
  destruct s as [|u s]; [discriminate|].
  destruct (in_cset upper u) eqn:Hu; [|discriminate].
  apply rep_sound in H as (tt & b2 & -> & Ftt & _ & H). cbn [run] in H.
  apply rep_sound in H as (v2 & b & -> & Fv2 & _ & H). cbn [run] in H.
  destruct b as [|c4 s]; [discriminate|].
  destruct (N.eqb_spec c4 nl) as [->|]; [|discriminate].
  destruct s as [|c5 s]; [discriminate|].
  destruct (N.eqb_spec c5 slash) as [->|]; [|discriminate].
  destruct s as [|c6 s]; [discriminate|].
  destruct (N.eqb_spec c6 slash) as [->|]; [|discriminate].
  apply rep_sound in H as (w3 & b & -> & Fw3 & _ & H). cbn [run] in H.
  apply rep_sound in H as (q3 & b3 & -> & Fq3 & Lq3 & H). cbn [run] in H.
  injection H as <-.
  exists w1, q1, v1, u, tt, v2, w3, q3. cbn [rest groups].
  repeat split; try assumption.
  - cbn. by rewrite <- !app_assoc.
  - cbn [close_group open_group opened closed no_caps rev app].
    f_equal; [|f_equal; [|f_equal]];
      (eapply take_group; [cbn; by rewrite <- ?app_assoc | reflexivity]).
  - intros ->. cbn in Lq3. lia.
Qed.

(** ** Rules that do not undo the work of earlier rules *)

Lemma silent_nil (p : pattern) (prev : option char) : silent p prev [].
Proof. intros e1 x e2 t H. by destruct e1. Qed.

Lemma silent_app (p : pattern) (prev : option char) (a b : text) :
  silent p prev a -> silent p (ctx prev a) b -> silent p prev (a ++ b).
Proof.
  intros Ha Hb e1 x e2 t H. symmetry in H.
  apply split_cases in H as [(a2 & -> & ->)|(b1 & -> & ->)].
  - rewrite <- app_assoc. by apply Ha.
  - rewrite ctx_app. by apply Hb.
Qed.

Lemma silent_quiet (p : pattern) (prev : option char) (e t : text) :
  silent p prev e -> quiet p (ctx prev e) t -> quiet p prev (e ++ t).
Proof. intros He Ht. apply quiet_app; [|exact Ht]. intros a1 x a2 ->. by apply He. Qed.

Lemma quiet_nil_inv (p : pattern) (prev : option char) :
  quiet p prev [] -> match_at p prev [] = None.
Proof. unfold quiet. cbn. by destruct (match_at p prev []). Qed.

Lemma quiet_weaken (p p' : pattern) (s : text) :
  (forall prev t, match_at p prev t = None -> match_at p' prev t = None) ->
  forall prev, quiet p prev s -> quiet p' prev s.
Proof.
  intros Himp. induction s as [|c s IH]; intros prev H.
  - apply quiet_nil, Himp. by apply quiet_nil_inv.
  - apply quiet_cons_inv in H as [H1 H2]. apply quiet_cons; auto.
Qed.

Section Preserve.
Context (p q : pattern) (tplq : template).

Hypothesis p_nil : forall prev, match_at p prev [] = None.
Hypothesis q_nil : forall prev, match_at q prev [] = None.
Hypothesis q_split : forall prev s m,
  match_at q prev s = Some m -> exists a, a <> [] /\ s = a ++ rest m.
Hypothesis hit : forall prev a m,
  a <> [] ->
  match_at q prev (a ++ rest m) = Some m ->
  quiet p prev (a ++ rest m) ->
  quiet p (ctx prev a) (sub_from q tplq (ctx prev a) (rest m)) ->
  quiet p prev (expand tplq m ++ sub_from q tplq (ctx prev a) (rest m)).
Hypothesis keep : forall prev c s,
  match_at q prev (c :: s) = None ->
  match_at p prev (c :: s) = None ->
  match_at p prev (c :: sub_from q tplq (Some c) s) = None.

Lemma preserve_bounded (n : nat) :
  forall (prev : option char) (s : text),
    (length s <= n)%nat -> quiet p prev s -> quiet p prev (sub_from q tplq prev s).
Proof.
  induction n as [|n IH]; intros prev s Hlen Hs.
  - destruct s; [|cbn in Hlen; lia].
    rewrite sub_from_nil by apply q_nil. apply quiet_nil, p_nil.
  - destruct s as [|c s].
    { rewrite sub_from_nil by apply q_nil. apply quiet_nil, p_nil. }
    destruct (match_at q prev (c :: s)) as [m|] eqn:Hm.
    + destruct (q_split _ _ _ Hm) as (a & Ha & Hsplit).
      rewrite Hsplit in Hm, Hs |- *. rewrite sub_from_hit by assumption.
      apply hit; try assumption.
      apply IH; [|by apply quiet_app_inv_r].
      apply (f_equal length) in Hsplit. rewrite length_app in Hsplit.
      cbn in Hsplit, Hlen. destruct a; [done|]. cbn in Hsplit. lia.
    + rewrite sub_from_keep by exact Hm.
      apply quiet_cons_inv in Hs as [Hc Hs].
      apply quiet_cons; [by apply keep|].
      apply IH; [cbn in Hlen; lia | exact Hs].
Qed.

Lemma preserve (s : text) : quiet p None s -> quiet p None (sub q tplq s).
Proof. apply (preserve_bounded (length s)). lia. Qed.
End Preserve.

(** *** Keeping lines free of a leading single slash *)

Lemma silent_pattern1_other (prev : option char) (e : text) :
  Forall (fun c => c <> slash) e -> silent pattern1 prev e.
Proof.
  intros He e1 x e2 t ->. apply Forall_app in He as [_ He].
  inversion He as [|? ? Hx _]; subst.
  rewrite match_pattern1. cbn [startswith].
  replace (N.eqb slash x) with false by (symmetry; apply N.eqb_neq; congruence).
  by rewrite andb_false_r.
Qed.

Lemma silent_pattern1_double (prev : option char) : silent pattern1 prev [slash; slash].
Proof.
  intros e1 x e2 t H. rewrite match_pattern1.
  destruct e1 as [|y1 e1]; [injection H as <- <-; cbn; by rewrite andb_false_r|].
  destruct e1 as [|y2 e1]; [by injection H as <- <- <-|].
  by destruct e1.
Qed.

Lemma startswith_one (x c : char) (s : text) : startswith [x] (c :: s) = N.eqb x c.
Proof. cbn. apply andb_true_r. Qed.

Lemma startswith_two (x y c : char) (s : text) :
  startswith [x; y] (c :: s) = N.eqb x c && startswith [y] s.
Proof. reflexivity. Qed.

Section KeepPattern1.
Context (q : pattern) (tplq : template).

Hypothesis q_nil : forall prev, match_at q prev [] = None.
Hypothesis q_after_slash : forall s,
  head (sub_from q tplq (Some slash) (slash :: s)) = Some slash.
Hypothesis q_shape : forall prev s m,
  match_at q prev s = Some m ->
  exists a, a <> [] /\ s = a ++ rest m /\
    ctx prev (expand tplq m) = ctx prev a /\
    silent pattern1 prev (expand tplq m).

Lemma keep_pattern1 (s : text) :
  quiet pattern1 None s -> quiet pattern1 None (sub q tplq s).
Proof.
  apply preserve.
  - intros prev. rewrite match_pattern1. by rewrite andb_false_r.
  - exact q_nil.
  - intros prev t m H. destruct (q_shape _ _ _ H) as (a & ? & ? & _). eauto.
  - intros prev a m Ha Hm _ Hrest.
    destruct (q_shape _ _ _ Hm) as (a' & _ & Hsplit & Hctx & Hsil).
    apply app_inv_tail in Hsplit as <-.
    apply silent_quiet; [exact Hsil | by rewrite Hctx].
  - intros prev c s0 _. rewrite !match_pattern1.
    destruct (at_bol prev); [|reflexivity].
    rewrite !startswith_two, !startswith_one.
    destruct (N.eqb_spec slash c) as [<-|]; [|reflexivity]. cbn [andb].
    rewrite !startswith_head.
    destruct s0 as [|d s0]; [discriminate|]. cbn [head].
    destruct (N.eqb_spec slash d) as [<-|]; [|discriminate].
    intros _. by rewrite q_after_slash, N.eqb_refl.
Qed.
End KeepPattern1.

Lemma Forall_not_char (cs : cset) (x : char) (l : text) :
  in_cset cs x = false ->
  Forall (fun c => in_cset cs c = true) l -> Forall (fun c => c <> x) l.
Proof.
  intros Hx H. eapply Forall_impl; [exact H|]. intros c Hc ->. congruence.
Qed.

Lemma silent_pattern1_banner (prev : option char) (w q : text) :
  Forall (fun c => in_cset [Space] c = true) w ->
  Forall (fun c => in_cset [Ch equals] c = true) q ->
  silent pattern1 prev (slash :: slash :: w ++ q).
Proof.
  intros Fw Fq.
  apply (silent_app _ _ [slash; slash]); [apply silent_pattern1_double|].
  apply silent_pattern1_other, Forall_app.
  split; eapply Forall_not_char; try eassumption; reflexivity.
Qed.

Lemma pattern2_led (prev : option char) (s : text) (m : found) :
  match_at pattern2 prev s = Some m ->
  startswith [slash] s = true /\
  startswith [slash] (expand title_comment m) = true /\
  exists a, a <> [] /\ s = a ++ rest m.
Proof.
  intros H.
  destruct (pattern2_match _ _ _ H)
    as (w1 & q1 & v1 & u & tt & v2 & w3 & q3 & -> & Hg & _).
  split; [reflexivity|]. split.
  - unfold expand, title_comment. cbn [flat_map nth pred]. rewrite Hg.
    reflexivity.
  - exists ((slash :: slash :: w1 ++ q1) ++ v1 ++ nl :: (u :: tt) ++ v2
            ++ nl :: slash :: slash :: w3 ++ q3).
    split; [done|]. by list_norm.
Qed.

(** Every match of every rule reads at least one character, so the
    scan never meets an empty match. *)
Lemma catalog_match_not_empty (r : rule) (prev : option char) (s : text)
    (m : found) :
  In r (catalog ++ FixTsComments.catalog) ->
  match_at (rule_pattern r) prev s = Some m ->
  exists a, a <> [] /\ s = a ++ rest m.
Proof.
  intros Hin. cbn in Hin.
  repeat (destruct Hin as [<-|Hin]); try (by destruct Hin);
    cbn [rule_pattern]; intros H.
  - apply pattern1_shape in H as (a & ? & ? & _). eauto.
  - apply pattern1_shape in H as (a & ? & ? & _). eauto.
  - by apply pattern2_led in H as (_ & _ & H).
  - apply pattern3_shape in H as (a & ? & ? & _). eauto.
  - apply pattern4_shape in H as (a & ? & ? & _). eauto.
  - apply pattern5_shape in H as (a & ? & ? & _). eauto.
  - apply pattern6_shape in H as (a & ? & ? & _). eauto.
  - apply pattern6_shape in H as (a & ? & ? & _). eauto.
  - apply fix_ts_pattern2_shape in H as (a & ? & ? & _). eauto.
  - by apply pattern2_led in H as (_ & _ & H).
  - apply pattern3_shape in H as (a & ? & ? & _). eauto.
  - apply pattern4_shape in H as (a & ? & ? & _). eauto.
  - apply pattern5_shape in H as (a & ? & ? & _). eauto.
Qed.

Lemma pattern2_keeps_pattern1 (s : text) :
  quiet pattern1 None s -> quiet pattern1 None (sub pattern2 title_comment s).
Proof.
  apply keep_pattern1.
  - apply (led_nil _ _ pattern2_led).
  - intros t. apply (sub_from_head _ _ pattern2_led).
  - intros prev t m H.
    destruct (pattern2_match _ _ _ H)
      as (w1 & q1 & v1 & u & tt & v2 & w3 & q3 & -> & Hg
          & Fw1 & Fq1 & Fv1 & Hu & Ftt & Fv2 & Fw3 & Fq3 & Hq3).
    exists ((slash :: slash :: w1 ++ q1) ++ v1 ++ nl :: (u :: tt) ++ v2
            ++ nl :: slash :: slash :: w3 ++ q3).
    split; [done|].
    split; [by list_norm|].
    assert (He : expand title_comment m
                 = (slash :: slash :: w1 ++ q1) ++ [nl]
                   ++ [slash; slash] ++ (space :: u :: tt) ++ [nl]
                   ++ (slash :: slash :: w3 ++ q3)).
    { unfold expand, title_comment. cbn [flat_map nth pred]. rewrite Hg.
      cbn [nth]. by list_norm. }
    rewrite He. split.
    + by repeat first [rewrite ctx_app | progress cbn [ctx]].
    + apply silent_app; [by apply silent_pattern1_banner|].
      apply silent_app; [by apply silent_pattern1_other; repeat constructor|].
      apply silent_app; [apply silent_pattern1_double|].
      apply silent_app.
      { apply silent_pattern1_other. constructor; [done|].
        constructor; [intros ->; discriminate|].
        eapply Forall_not_char; [|exact Ftt]. reflexivity. }
      apply silent_app; [by apply silent_pattern1_other; repeat constructor|].
      by apply silent_pattern1_banner.
Qed.

Lemma pattern3_keeps_pattern1 (s : text) :
  quiet pattern1 None s -> quiet pattern1 None (sub pattern3 inner_slash s).
Proof.
  apply keep_pattern1.
  - apply pattern3_nil.
  - intros t. by rewrite sub_from_keep by by apply pattern3_other.
  - intros prev t m H.
    destruct (pattern3_hit _ _ _ H)
      as (w & w' & l & Hs & _ & He & Hw & Hw' & Fw & Fw' & Hl).
    exists (w ++ slash :: w' ++ [l]).
    split; [by destruct w|].
    split; [rewrite Hs, <- !app_assoc; cbn; by rewrite <- app_assoc|].
    rewrite He. split; [by rewrite !ctx_app|].
    apply silent_app.
    { apply silent_pattern1_other. eapply Forall_not_char; [|exact Fw]. reflexivity. }
    apply (silent_app _ _ [slash; slash]); [apply silent_pattern1_double|].
    apply silent_pattern1_other, Forall_app. split.
    + eapply Forall_not_char; [|exact Fw']. reflexivity.
    + constructor; [|constructor]. intros ->. discriminate.
Qed.

Lemma quiet_at (p : pattern) (a1 : text) :
  forall (prev : option char) (x : char) (t : text),
    quiet p prev (a1 ++ x :: t) -> match_at p (ctx prev a1) (x :: t) = None.
Proof.
  intros prev x t H. apply quiet_app_inv_r in H. by apply quiet_cons_inv in H as [H _].
Qed.

Lemma spaced_letter_slash (t : text) : spaced_letter (slash :: t) = false.
Proof. reflexivity. Qed.

(** *** Rules that put [// ] in front of a whole line *)

Section LineComment.
Context (q : pattern).

Hypothesis q_anchored : forall prev s, at_bol prev = false -> match_at q prev s = None.
Hypothesis q_nil : forall prev, match_at q prev [] = None.
Hypothesis q_line : forall prev s m,
  match_at q prev s = Some m ->
  exists c a,
    s = (c :: a) ++ rest m /\
    expand comment_out m = slash :: slash :: space :: c :: a /\
    Forall (fun d => d <> nl /\ d <> slash) (c :: a) /\
    is_space c = false.

Lemma line_comment_not_space (prev : option char) (c : char) (s : text) :
  is_space c = true -> match_at q prev (c :: s) = None.
Proof.
  intros Hc. destruct (match_at q prev (c :: s)) as [m|] eqn:E; [|reflexivity].
  destruct (q_line _ _ _ E) as (c' & a & Hs & _ & _ & Hc').
  injection Hs as -> _. congruence.
Qed.

Lemma line_comment_keeps_pattern1 (s : text) :
  quiet pattern1 None s -> quiet pattern1 None (sub q comment_out s).
Proof.
  apply keep_pattern1.
  - exact q_nil.
  - intros t. by rewrite sub_from_keep by by apply q_anchored.
  - intros prev t m H.
    destruct (q_line _ _ _ H) as (c & a & Hs & He & Fa & Hc).
    exists (c :: a). split; [done|]. split; [exact Hs|]. rewrite He.
    split; [reflexivity|].
    apply (silent_app _ _ [slash; slash]); [apply silent_pattern1_double|].
    apply silent_pattern1_other. constructor; [done|].
    eapply Forall_impl; [exact Fa|]. by intros d [_ ?].
Qed.

(** The white space after a slash and the letter that follows it. *)
Lemma line_comment_spaced_letter (t : text) :
  forall prev,
    spaced_letter t = false ->
    spaced_letter (sub_from q comment_out prev t) = false.
Proof.
  intros prev H.
  assert (Hrun : sub_from q comment_out prev t
                 = leading [Space] t
                   ++ sub_from q comment_out (ctx prev (leading [Space] t))
                        (beyond [Space] t)).
  { rewrite <- (leading_beyond [Space] t) at 1.
    apply sub_from_keep_prefix. intros a1 x a2 Ha.
    apply line_comment_not_space.
    pose proof (leading_all [Space] t) as Hall. rewrite Ha in Hall.
    apply Forall_app in Hall as [_ Hall]. inversion Hall as [|? ? Hx _]; subst.
    cbn in Hx. by rewrite orb_false_r in Hx. }
  unfold spaced_letter in *. rewrite Hrun.
  rewrite leading_app, beyond_app by apply leading_all.
  set (prev' := ctx prev (leading [Space] t)) in *.
  destruct (beyond [Space] t) as [|x r] eqn:Er.
  { rewrite sub_from_nil by apply q_nil. cbn [leading beyond].
    by rewrite app_nil_r, andb_false_r. }
  pose proof (beyond_head _ _ _ _ Er) as Hx.
  destruct (match_at q prev' (x :: r)) as [m|] eqn:E.
  - destruct (q_line _ _ _ E) as (c & a & Hs & He & _ & _).
    rewrite Hs in E |- *. rewrite sub_from_hit by done. rewrite He.
    cbn [app leading beyond].
    change (in_cset [Space] slash) with false. cbv iota.
    by rewrite andb_false_r.
  - rewrite sub_from_keep by exact E. cbn [leading beyond]. rewrite Hx.
    by rewrite app_nil_r in *.
Qed.

Lemma line_comment_slash_then_letter (s : text) :
  forall prev,
    slash_then_letter (beyond [Space] s) = false ->
    slash_then_letter (beyond [Space] (sub_from q comment_out prev s)) = false.
Proof.
  intros prev H.
  assert (Hrun : sub_from q comment_out prev s
                 = leading [Space] s
                   ++ sub_from q comment_out (ctx prev (leading [Space] s))
                        (beyond [Space] s)).
  { rewrite <- (leading_beyond [Space] s) at 1.
    apply sub_from_keep_prefix. intros a1 x a2 Ha.
    apply line_comment_not_space.
    pose proof (leading_all [Space] s) as Hall. rewrite Ha in Hall.
    apply Forall_app in Hall as [_ Hall]. inversion Hall as [|? ? Hx _]; subst.
    cbn in Hx. by rewrite orb_false_r in Hx. }
  rewrite Hrun. rewrite beyond_app by apply leading_all.
  set (prev' := ctx prev (leading [Space] s)) in *.
  destruct (beyond [Space] s) as [|x r] eqn:Er.
  { by rewrite sub_from_nil by apply q_nil. }
  pose proof (beyond_head _ _ _ _ Er) as Hx.
  destruct (match_at q prev' (x :: r)) as [m|] eqn:E.
  - destruct (q_line _ _ _ E) as (c & a & Hs & He & _ & _).
    rewrite Hs in E |- *. rewrite sub_from_hit by done. rewrite He.
    reflexivity.
  - rewrite sub_from_keep by exact E. cbn [beyond]. rewrite Hx.
    cbn [slash_then_letter] in *.
    destruct (N.eqb x slash); [|reflexivity]. cbn [andb] in *.
    by apply line_comment_spaced_letter.
Qed.

Lemma line_comment_keeps_pattern3 (s : text) :
  quiet pattern3 None s -> quiet pattern3 None (sub q comment_out s).
Proof.
  apply preserve.
  - apply pattern3_nil.
  - exact q_nil.
  - intros prev t m H. destruct (q_line _ _ _ H) as (c & a & Hs & _).
    exists (c :: a). by split.
  - intros prev a m Ha Hm Hq Hrest.
    destruct (q_line _ _ _ Hm) as (c & a' & Hs & He & Fa & Hc).
    apply app_inv_tail in Hs as ->. rewrite He. cbn [app].
    apply quiet_cons; [by apply pattern3_other|].
    apply quiet_cons; [by apply pattern3_other|].
    apply quiet_cons.
    { apply pattern3_space; [reflexivity|].
      cbn [app beyond in_cset existsb in_atom]. rewrite Hc. cbn [orb].
      cbn [slash_then_letter].
      inversion Fa as [|? ? [_ Hcs] _]; subst.
      replace (N.eqb c slash) with false; [reflexivity|].
      symmetry. by apply N.eqb_neq. }
    change (c :: a' ++ ?Y) with ((c :: a') ++ Y).
    apply quiet_app; [|exact Hrest].
    intros a1 x a2 Hsplit.
    destruct (is_space x) eqn:Hx; [|by apply pattern3_other].
    apply pattern3_space; [exact Hx|].
    assert (Horig : slash_then_letter (beyond [Space] (a2 ++ rest m)) = false).
    { rewrite Hsplit, <- app_assoc in Hq. apply quiet_at in Hq.
      by apply pattern3_space in Hq. }
    assert (Fa2 : Forall (fun d => d <> nl) (x :: a2)).
    { rewrite Hsplit in Fa. apply Forall_app in Fa as [_ Fa].
      eapply Forall_impl; [exact Fa|]. by intros d [? _]. }
    inversion Fa2 as [|? ? Hxnl Fa2']; subst.
    assert (Hline : sub_from q comment_out (Some x) (a2 ++ rest m)
                    = a2 ++ sub_from q comment_out (ctx (Some x) a2) (rest m)).
    { apply sub_from_line; [exact q_anchored | by apply N.eqb_neq | exact Fa2']. }
    rewrite Hsplit, ctx_app in Hrest |- *. cbn [ctx] in *.
    rewrite <- Hline. by apply line_comment_slash_then_letter.
  - intros prev c t _ H.
    destruct (is_space c) eqn:Hc; [|by apply pattern3_other].
    apply pattern3_space in H; [|exact Hc].
    apply pattern3_space; [exact Hc|].
    by apply line_comment_slash_then_letter.
Qed.
End LineComment.

Lemma pattern4_line (prev : option char) (s : text) (m : found) :
  match_at pattern4 prev s = Some m ->
  exists c a,
    s = (c :: a) ++ rest m /\
    expand comment_out m = slash :: slash :: space :: c :: a /\
    Forall (fun d => d <> nl /\ d <> slash) (c :: a) /\
    is_space c = false.
Proof.
  rewrite match_pattern4. destruct s as [|c t]; [discriminate|].
  destruct (at_bol prev); [|discriminate].
  destruct (in_cset upper c) eqn:Hc; [|discriminate].
  cbn [andb]. destruct (_ && _); [|discriminate]. intros [= <-].
  exists c, (leading title t). cbn [rest groups].
  split; [cbn; by rewrite leading_beyond|].
  split; [cbn; by rewrite app_nil_r|].
  split; [|chars].
  constructor; [split; chars|].
  eapply Forall_impl; [apply leading_all|]. intros d Hd. split; chars.
Qed.

Lemma pattern5_line (prev : option char) (s : text) (m : found) :
  match_at pattern5 prev s = Some m ->
  exists c a,
    s = (c :: a) ++ rest m /\
    expand comment_out m = slash :: slash :: space :: c :: a /\
    Forall (fun d => d <> nl /\ d <> slash) (c :: a) /\
    is_space c = false.
Proof.
  rewrite match_pattern5.
  destruct (at_bol prev); [|discriminate]. cbn [andb].
  destruct (1 <=? length (leading [Ch equals] s))%nat eqn:Hlen; [|discriminate].
  cbn [andb]. destruct (at_eol _); [|discriminate]. intros [= <-].
  cbn [rest groups].
  pose proof (leading_all [Ch equals] s) as Hall.
  pose proof (leading_beyond [Ch equals] s) as Hs.
  destruct (leading [Ch equals] s) as [|c a]; [discriminate|].
  exists c, a.
  split; [by rewrite Hs|].
  split; [cbn; by rewrite app_nil_r|].
  split.
  - eapply Forall_impl; [exact Hall|]. intros d Hd. split; chars.
  - inversion Hall as [|? ? Hc _]; subst. chars.
Qed.

Lemma pattern4_nil (prev : option char) : match_at pattern4 prev [] = None.
Proof. by rewrite match_pattern4. Qed.

Lemma pattern5_nil (prev : option char) : match_at pattern5 prev [] = None.
Proof. rewrite match_pattern5. by rewrite andb_false_r. Qed.

(** *** [pattern5] keeps the lines of capitals commented *)

Lemma pattern5_keeps_pattern4 (s : text) :
  quiet pattern4 None s -> quiet pattern4 None (sub pattern5 comment_out s).
Proof.
  apply preserve.
  - apply pattern4_nil.
  - apply pattern5_nil.
  - intros prev t m H. destruct (pattern5_line _ _ _ H) as (c & a & Hs & _).
    exists (c :: a). by split.
  - intros prev a m Ha Hm _ Hrest.
    destruct (pattern5_line _ _ _ Hm) as (c & a' & Hs & He & Fa & Hc).
    apply app_inv_tail in Hs as ->. rewrite He.
    apply (silent_quiet _ _ (slash :: slash :: space :: c :: a')); [|exact Hrest].
    intros e1 x e2 t Hsplit. rewrite match_pattern4.
    destruct e1 as [|y1 e1];
      [injection Hsplit as <- <-; cbn; by rewrite andb_false_r|].
    replace (at_bol (ctx prev (y1 :: e1))) with false; [reflexivity|].
    symmetry. cbn [ctx].
    assert (Fe : Forall (fun d => d <> nl) (slash :: slash :: space :: c :: a')).
    { do 3 (constructor; [done|]). eapply Forall_impl; [exact Fa|]. by intros d [? _]. }
    rewrite Hsplit in Fe. apply Forall_app in Fe as [Fe _].
    inversion Fe; subst. apply ctx_not_bol; [by apply N.eqb_neq | assumption].
  - intros prev c t _. rewrite !match_pattern4.
    destruct (at_bol prev); [|reflexivity].
    destruct (in_cset upper c) eqn:Hc; [|reflexivity].
    destruct (line_stable pattern5 comment_out pattern5_anchored title (Some c) t)
      as [-> ->]; [by apply upper_not_nl | reflexivity | ].
    by destruct (_ && _).
Qed.

(** *** No single slash, no single slash before a divider *)

Lemma pattern1_covers_pattern6 (prev : option char) (s : text) :
  match_at pattern1 prev s = None -> match_at pattern6 prev s = None.
Proof.
  rewrite match_pattern1, match_pattern6.
  destruct (at_bol prev); [|reflexivity]. cbn [andb].
  destruct s as [|c t]; [reflexivity|].
  rewrite startswith_two, startswith_one.
  destruct (N.eqb slash c); [|reflexivity]. cbn [andb].
  change (drop 1 (c :: t)) with t.
  rewrite startswith_head, leb_leading_head.
  destruct t as [|d t]; [discriminate|]. cbn [head leading beyond].
  destruct (N.eqb_spec slash d) as [<-|Hd]; [reflexivity|discriminate].
Qed.

(** ** The output of the pipeline *)

(** In the text that [fix_file] produces, no rule but the title rule finds
    a match. *)
Lemma fix_content_settled (t : text) :
  let t' := (fix_content t).1 in
  quiet pattern1 None t' /\ quiet pattern3 None t' /\ quiet pattern4 None t' /\
  quiet pattern5 None t' /\ quiet pattern6 None t'.
Proof.
  destruct (fix_content_parts t)
    as (c1 & c2 & c3 & c4 & c5 & c6 & c7 & c8
        & E1 & E2 & E3 & E4 & E5 & E6 & E7 & E8 & E9 & _).
  intros t'. subst t'. rewrite E9. clear E9.
  assert (Q1 : quiet pattern1 None c1)
    by (subst c1; apply count_quiet, pattern1_idempotent).
  rewrite quiet_sub in E2 by exact Q1. subst c2.
  assert (Q3 : quiet pattern3 None c4)
    by (subst c4; apply count_quiet, pattern3_idempotent).
  assert (Q4 : quiet pattern4 None c5)
    by (subst c5; apply count_quiet, pattern4_idempotent).
  assert (Q5 : quiet pattern5 None c6)
    by (subst c6; apply count_quiet, pattern5_idempotent).
  assert (Q1' : quiet pattern1 None c6).
  { subst c6 c5 c4 c3.
    apply (line_comment_keeps_pattern1 _ pattern5_anchored pattern5_nil pattern5_line).
    apply (line_comment_keeps_pattern1 _ pattern4_anchored pattern4_nil pattern4_line).
    by apply pattern3_keeps_pattern1, pattern2_keeps_pattern1. }
  assert (Q3' : quiet pattern3 None c6).
  { subst c6 c5.
    apply (line_comment_keeps_pattern3 _ pattern5_anchored pattern5_nil pattern5_line).
    by apply (line_comment_keeps_pattern3 _ pattern4_anchored pattern4_nil pattern4_line). }
  assert (Q4' : quiet pattern4 None c6)
    by (subst c6; by apply pattern5_keeps_pattern4).
  assert (Q6 : quiet pattern6 None c6)
    by (apply (quiet_weaken pattern1); [apply pattern1_covers_pattern6 | exact Q1']).
  rewrite quiet_sub in E7 by exact Q6. subst c7.
  rewrite quiet_sub in E8 by exact Q6. subst c8.
  rewrite quiet_sub by exact Q6. auto.
Qed.

(** The second application of [pattern1] and the three of [pattern6] never
    find anything: [section_headers] is always 0 and [standalone_slashes]
    counts the first application of [pattern1] only. *)
Lemma repeated_rules_find_nothing (t : text) :
  (fix_content t).2 !!! "section_headers" = 0%Z /\
  (fix_content t).2 !!! "standalone_slashes" = count pattern1 t.
Proof.
  pose proof (fix_content_unfold t) as E. cbv zeta in E.
  pose proof (fix_content_settled t) as (_ & _ & _ & _ & Q6). cbv zeta in Q6.
  rewrite E in Q6 |- *. cbn [fst snd] in *. clear E.
  assert (Q1 : quiet pattern1 None (sub pattern1 double_slash t))
    by apply count_quiet, pattern1_idempotent.
  rewrite (quiet_sub pattern1 double_slash (sub pattern1 double_slash t)) in *
    by exact Q1.
  set (c6 := sub pattern5 comment_out _) in *.
  assert (Q1' : quiet pattern1 None c6).
  { subst c6.
    apply (line_comment_keeps_pattern1 _ pattern5_anchored pattern5_nil pattern5_line).
    apply (line_comment_keeps_pattern1 _ pattern4_anchored pattern4_nil pattern4_line).
    by apply pattern3_keeps_pattern1, pattern2_keeps_pattern1. }
  assert (Q6' : quiet pattern6 None c6)
    by (apply (quiet_weaken pattern1); [apply pattern1_covers_pattern6 | exact Q1']).
  rewrite !(quiet_sub pattern6 double_slash c6) by exact Q6'.
  rewrite (quiet_count pattern6 c6 Q6'), (quiet_count pattern1 _ Q1).
  split.
  - match goal with |- tally ?a _ _ _ _ _ _ _ _ !!! _ = _ =>
      transitivity a; [vm_refl | reflexivity] end.
  - match goal with |- tally _ _ _ _ _ _ _ ?a _ !!! _ = _ =>
      transitivity a; [vm_refl | lia] end.
Qed.

(** C1, amended: let [t'] be the text that the pipeline of [fix_file]
    returns for [t].  If the title rule [pattern2] matches nowhere in [t'],
    the pipeline applied to [t'] returns [t'] and the all-zero tally. *)
Theorem second_run_changes_nothing (t : text) :
  let t' := (fix_content t).1 in
  count pattern2 t' = 0%Z ->
  fix_content t' = (t', fix_counts0).
Proof.
  intros t' H2.
  destruct (fix_content_settled t) as (Q1 & Q3 & Q4 & Q5 & Q6).
  fold t' in Q1, Q3, Q4, Q5, Q6.
  pose proof (count_quiet _ _ H2) as Q2.
  pose proof (fix_content_unfold t') as E. cbv zeta in E. rewrite E. clear E.
  rewrite !(quiet_sub pattern1 _ t') by exact Q1.
  rewrite !(quiet_sub pattern2 _ t') by exact Q2.
  rewrite !(quiet_sub pattern3 _ t') by exact Q3.
  rewrite !(quiet_sub pattern4 _ t') by exact Q4.
  rewrite !(quiet_sub pattern5 _ t') by exact Q5.
  rewrite !(quiet_sub pattern6 _ t') by exact Q6.
  rewrite (quiet_count pattern1 t' Q1), H2, (quiet_count pattern3 t' Q3),
          (quiet_count pattern4 t' Q4), (quiet_count pattern5 t' Q5),
          (quiet_count pattern6 t' Q6).
  apply (f_equal (pair t')). vm_refl.
Qed.

Lemma second_run_changes_nothing_witness :
  let t' := (fix_content (str "/ === SECTION ===" ++ [nl])).1 in
  fix_content t' = (t', fix_counts0).
Proof.
  apply (second_run_changes_nothing (str "/ === SECTION ===" ++ [nl])).
  vm_compute. reflexivity.
Defined.
